(** * Customer addresses: the [useCustomerAddresses] hook and the address form

    A shallow embedding of the address-management code of the repository:
    the hook [useCustomerAddresses] (query, create, update, delete and
    set-default mutations, [defaultAddress]) and the parts of
    [AddressSelector.tsx] that drive it ([handleSaveAddress] and the
    initial-selection effect).

    The hook talks to one table, [customer_addresses], through the
    supabase-js query builder.  The table is modelled as the list of its
    rows, a request as the data the builder sends (body and filters), and a
    mutation as a computation in a small state monad over the remote table,
    the log of round trips and the schedule of calls that fail.

    What is taken from the store and its client, which the hook relies on:
    an awaited call never throws, it answers with [{ data, error }]; a call
    that fails changes nothing; [.single()] answers with an error unless
    exactly one row comes back; a [delete] or an [update] that selects no
    row is not an error; [id] is the primary key, generated by the server.

    The columns have the types of the migration that creates the table:
    [id] and [panchayat_id] are of type uuid, [ward_number] is a four-byte
    integer and [panchayat_id] references a row of [panchayats].  A request
    with a value that is not of the type of its column, or with a panchayat
    that does not exist, is answered with an error and changes nothing.
    The user id is the one of the session, a uuid in the text form the
    store shows; the text columns take any string. *)

From stdpp Require Import base numbers list sets sorting.
From Stdlib Require Import Ascii String.

Local Open Scope Z_scope.

(** ** JavaScript values *)

(** A JavaScript string is a sequence of UTF-16 code units. *)
Abbreviation JsString := (list N).

Definition lit (s : string) : JsString :=
  (fun a => N_of_ascii a) <$> list_ascii_of_string s.

(** [s || d] on strings: the empty string is falsy. *)
Definition str_truthy (s : JsString) : bool :=
  match s with [] => false | _ :: _ => true end.

(** [o || null] and [o || d] where [o] is an optional string property
    ([undefined] is [None]). *)
Definition str_or_null (o : option JsString) : option JsString :=
  match o with
  | Some s => if str_truthy s then Some s else None
  | None => None
  end.

Definition str_or (o : option JsString) (d : JsString) : JsString :=
  default d (str_or_null o).

(** [n || null] on an optional integer: [0] is falsy. *)
Definition num_or_null (o : option Z) : option Z :=
  match o with
  | Some n => if bool_decide (n = 0) then None else Some n
  | None => None
  end.

(** Truthiness of an optional boolean property, as in [if (input.is_default)]
    and [input.is_default || false]. *)
Definition flag (o : option bool) : bool := default false o.

(** The code units that [String.prototype.trim] strips: the WhiteSpace and
    LineTerminator productions of ECMAScript. *)
Definition is_white_space (c : N) : bool :=
  let c := Z.of_N c in
  bool_decide (9 ≤ c ≤ 13) || bool_decide (c = 32) || bool_decide (c = 160)
  || bool_decide (c = 5760) || bool_decide (8192 ≤ c ≤ 8202)
  || bool_decide (c = 8232) || bool_decide (c = 8233) || bool_decide (c = 8239)
  || bool_decide (c = 8287) || bool_decide (c = 12288) || bool_decide (c = 65279).

Fixpoint trim_start (s : JsString) : JsString :=
  match s with
  | [] => []
  | c :: s' => if is_white_space c then trim_start s' else s
  end.

Definition trim_end (s : JsString) : JsString :=
  reverse (trim_start (reverse s)).

Definition trim (s : JsString) : JsString := trim_end (trim_start s).

(** ** The column types *)

(** The value of a hexadecimal digit, in either case. *)
Definition hex_value (c : N) : option N :=
  if bool_decide (48 ≤ c ≤ 57)%N then Some (c - 48)%N
  else if bool_decide (97 ≤ c ≤ 102)%N then Some (c - 87)%N
  else if bool_decide (65 ≤ c ≤ 70)%N then Some (c - 55)%N
  else None.

(** The [n] bytes that remain to be read, two digits each; [i] is the index
    of the byte.  A hyphen may follow every second byte, the last one apart. *)
Fixpoint uuid_bytes (n i : nat) (src : JsString) (acc : N) : option (N * JsString) :=
  match n with
  | O => Some (acc, src)
  | S n' =>
      match src with
      | c1 :: c2 :: rest =>
          match hex_value c1, hex_value c2 with
          | Some d1, Some d2 =>
              uuid_bytes n' (S i)
                (match rest with
                 | c :: rest' =>
                     if bool_decide (c = 45%N) && Nat.odd i && bool_decide (i < 15)%nat
                     then rest' else rest
                 | [] => rest
                 end)
                (acc * 256 + d1 * 16 + d2)%N
          | _, _ => None
          end
      | _ => None
      end
  end.

(** The input syntax of the type uuid: sixteen bytes written as thirty-two
    hexadecimal digits, with a hyphen allowed after each group of four
    digits, the whole optionally in braces.  The value is the 128-bit number
    that the digits write; anything else is not a uuid. *)
Definition uuid_in (s : JsString) : option N :=
  let braces := bool_decide (head s = Some 123%N) in
  match uuid_bytes 16 0 (if braces then tail s else s) 0 with
  | Some (v, rest) =>
      if bool_decide (rest = if braces then [125%N] else []) then Some v else None
  | None => None
  end.

Definition hex_digit (d : N) : N :=
  if bool_decide (d < 10)%N then (48 + d)%N else (87 + d)%N.

(** The [k] low hexadecimal digits of [v], the most significant first. *)
Fixpoint hex (k : nat) (v : N) : JsString :=
  match k with
  | O => []
  | S k' => hex k' (v / 16)%N ++ [hex_digit (v mod 16)%N]
  end.

(** The output syntax: lower-case digits in groups of 8, 4, 4, 4 and 12. *)
Definition uuid_out (v : N) : JsString :=
  hex 8 (v / 16 ^ 24)%N ++ [45%N] ++ hex 4 (v / 16 ^ 20)%N ++ [45%N]
  ++ hex 4 (v / 16 ^ 16)%N ++ [45%N] ++ hex 4 (v / 16 ^ 12)%N ++ [45%N] ++ hex 12 v.

Global Arguments uuid_in _ : simpl never.
Global Arguments uuid_out _ : simpl never.

Definition is_uuid (s : JsString) : bool := bool_decide (is_Some (uuid_in s)).

(** The text the store shows for the uuid that [s] writes. *)
Definition uuid_text (s : JsString) : JsString := from_option uuid_out s (uuid_in s).

(** A string is the text of a uuid as the store shows it. *)
Definition canonical (s : JsString) : Prop := uuid_out <$> uuid_in s = Some s.

Global Instance canonical_dec s : Decision (canonical s).
Proof. unfold canonical. apply _. Defined.

(** The type integer: four bytes, signed. *)
Definition int4 (n : Z) : bool := bool_decide (- 2 ^ 31 ≤ n < 2 ^ 31).

Global Arguments is_uuid _ : simpl never.
Global Arguments uuid_text _ : simpl never.
Global Arguments int4 _ : simpl never.

(** ** The table [customer_addresses] *)

(** Timestamps are instants; the store orders them as such. *)
Abbreviation Timestamp := Z.

Module CustomerAddress.
Record t := mk {
  id : JsString;
  user_id : JsString;
  address_label : JsString;
  full_address : JsString;
  landmark : option JsString;
  panchayat_id : option JsString;
  ward_number : option Z;
  is_default : bool;
  created_at : Timestamp;
  updated_at : Timestamp
}.
End CustomerAddress.

Module CreateAddressInput.
Record t := mk {
  address_label : option JsString;
  full_address : JsString;
  landmark : option JsString;
  panchayat_id : option JsString;
  ward_number : option Z;
  is_default : option bool
}.
End CreateAddressInput.

(** [Partial<CreateAddressInput>]: every property optional. *)
Module PartialInput.
Record t := mk {
  address_label : option JsString;
  full_address : option JsString;
  landmark : option JsString;
  panchayat_id : option JsString;
  ward_number : option Z;
  is_default : option bool
}.
End PartialInput.

(** The body of an [insert]: the seven columns the hook sends; [id],
    [created_at] and [updated_at] are column defaults of the table. *)
Module InsertBody.
Record t := mk {
  user_id : JsString;
  address_label : JsString;
  full_address : JsString;
  landmark : option JsString;
  panchayat_id : option JsString;
  ward_number : option Z;
  is_default : bool
}.
End InsertBody.

(** The body of an [update]: the columns present in the JSON object.  A
    property whose value is [undefined] is not serialised, so it is absent. *)
Module UpdateBody.
Record t := mk {
  address_label : option JsString;
  full_address : option JsString;
  landmark : option JsString;
  panchayat_id : option JsString;
  ward_number : option Z;
  is_default : option bool;
  updated_at : option Timestamp
}.

Definition apply (b : t) (r : CustomerAddress.t) : CustomerAddress.t :=
  {| CustomerAddress.id := CustomerAddress.id r;
     CustomerAddress.user_id := CustomerAddress.user_id r;
     CustomerAddress.address_label :=
       default (CustomerAddress.address_label r) (address_label b);
     CustomerAddress.full_address :=
       default (CustomerAddress.full_address r) (full_address b);
     CustomerAddress.landmark :=
       match landmark b with Some s => Some s | None => CustomerAddress.landmark r end;
     CustomerAddress.panchayat_id :=
       match panchayat_id b with
       | Some s => Some (uuid_text s)
       | None => CustomerAddress.panchayat_id r
       end;
     CustomerAddress.ward_number :=
       match ward_number b with Some n => Some n | None => CustomerAddress.ward_number r end;
     CustomerAddress.is_default :=
       default (CustomerAddress.is_default r) (is_default b);
     CustomerAddress.created_at := CustomerAddress.created_at r;
     CustomerAddress.updated_at :=
       default (CustomerAddress.updated_at r) (updated_at b) |}.
End UpdateBody.

Abbreviation Table := (list CustomerAddress.t).

(** ** Requests of the query builder *)

(** The filters the hook uses: [.eq('user_id', v)], [.eq('id', v)] and
    [.neq('id', v)]. *)
Inductive Filter :=
  | eq_user_id (v : JsString)
  | eq_id (v : JsString)
  | neq_id (v : JsString).

(** An id is compared as a uuid: two texts that write the same value are
    the same id (a filter value that is not a uuid never gets this far, see
    [type_error]).  The user id is the one of the session, which is the text
    the store shows, and is compared as such. *)
Definition holds (f : Filter) (r : CustomerAddress.t) : bool :=
  match f with
  | eq_user_id v => bool_decide (CustomerAddress.user_id r = v)
  | eq_id v => bool_decide (uuid_in (CustomerAddress.id r) = uuid_in v)
  | neq_id v => bool_decide (uuid_in (CustomerAddress.id r) ≠ uuid_in v)
  end.

Definition selected (fs : list Filter) (r : CustomerAddress.t) : bool :=
  forallb (fun f => holds f r) fs.

(** [.order(column, { ascending })] on the two columns the query sorts by. *)
Inductive Column := col_is_default | col_created_at.

Record Order := { column : Column; ascending : bool }.

Inductive Request :=
  | Select (fs : list Filter) (order : list Order)
  | Insert (body : InsertBody.t)                          (* .select().single() *)
  | Update (body : UpdateBody.t) (fs : list Filter) (single : bool)
  | Delete (fs : list Filter).

Inductive PostgrestError :=
  | FetchError      (* the call did not go through: transport, authorization *)
  | PGRST116        (* .single(): the result is not exactly one row *)
  | PG23505         (* unique violation on the primary key *)
  | PG22P02         (* invalid text representation: not a uuid *)
  | PG22003         (* numeric value out of range: not a four-byte integer *)
  | PG23503.        (* foreign key violation: no such panchayat *)

Inductive Data :=
  | null
  | object (r : CustomerAddress.t)
  | rows (l : list CustomerAddress.t).

Record Response := { data : Data; error : option PostgrestError }.

(** ** The store *)

(** The sort key of a row on a column; [false] sorts before [true]. *)
Definition sort_key (c : Column) (r : CustomerAddress.t) : Z :=
  match c with
  | col_is_default => Z.b2z (CustomerAddress.is_default r)
  | col_created_at => CustomerAddress.created_at r
  end.

Definition order_compare1 (o : Order) (a b : CustomerAddress.t) : comparison :=
  if ascending o then sort_key (column o) a ?= sort_key (column o) b
  else sort_key (column o) b ?= sort_key (column o) a.

(** ORDER BY with several keys: lexicographic. *)
Fixpoint order_compare (os : list Order) (a b : CustomerAddress.t) : comparison :=
  match os with
  | [] => Eq
  | o :: os' =>
      match order_compare1 o a b with
      | Eq => order_compare os' a b
      | c => c
      end
  end.

Definition order_le (os : list Order) (a b : CustomerAddress.t) : Prop :=
  order_compare os a b ≠ Gt.

Global Instance order_le_dec os a b : Decision (order_le os a b).
Proof. unfold order_le. apply _. Defined.

(** What the server fills in for one request: the value of
    [gen_random_uuid()], a uuid, and of [now()]. *)
Record Generated := { gen_random_uuid : dsig canonical; now : Timestamp }.

(** The generated id as the client reads it. *)
Definition uuid (g : Generated) : JsString := proj1_sig (gen_random_uuid g).

Definition new_row (g : Generated) (b : InsertBody.t) : CustomerAddress.t :=
  {| CustomerAddress.id := uuid g;
     CustomerAddress.user_id := InsertBody.user_id b;
     CustomerAddress.address_label := InsertBody.address_label b;
     CustomerAddress.full_address := InsertBody.full_address b;
     CustomerAddress.landmark := InsertBody.landmark b;
     CustomerAddress.panchayat_id := uuid_text <$> InsertBody.panchayat_id b;
     CustomerAddress.ward_number := InsertBody.ward_number b;
     CustomerAddress.is_default := InsertBody.is_default b;
     CustomerAddress.created_at := now g;
     CustomerAddress.updated_at := now g |}.

(** A filter on [id] whose value is not a uuid. *)
Definition filter_error (f : Filter) : option PostgrestError :=
  match f with
  | eq_user_id _ => None
  | eq_id v | neq_id v => if is_uuid v then None else Some PG22P02
  end.

(** A body whose [panchayat_id] is not a uuid or whose [ward_number] is not
    a four-byte integer. *)
Definition body_error (panchayat_id : option JsString) (ward_number : option Z)
    : option PostgrestError :=
  if negb (from_option is_uuid true panchayat_id) then Some PG22P02
  else if negb (from_option int4 true ward_number) then Some PG22003
  else None.

(** A request with a value that is not of the type of its column. *)
Definition type_error (q : Request) : option PostgrestError :=
  match q with
  | Select fs _ | Delete fs => head (omap filter_error fs)
  | Insert b => body_error (InsertBody.panchayat_id b) (InsertBody.ward_number b)
  | Update b fs _ =>
      match head (omap filter_error fs) with
      | Some e => Some e
      | None => body_error (UpdateBody.panchayat_id b) (UpdateBody.ward_number b)
      end
  end.

(** [panchayat_id] references [panchayats(id)]: whether the body names a
    panchayat that is not among [ps], the ids of the rows of [panchayats]. *)
Definition dangling (ps : list N) (panchayat_id : option JsString) : bool :=
  match panchayat_id ≫= uuid_in with
  | Some p => bool_decide (p ∉ ps)
  | None => false
  end.

(** The answer to a request that is refused: the table stays as it is. *)
Definition refused (e : PostgrestError) (tbl : Table) : Response * Table :=
  ({| data := null; error := Some e |}, tbl).

(** One request executed by the store on the table.  A request with a value
    of the wrong type is refused whatever the rows; the reference to
    [panchayats] is checked on the rows that are written. *)
Definition serve (ps : list N) (g : Generated) (q : Request) (tbl : Table)
    : Response * Table :=
  match type_error q with
  | Some e => refused e tbl
  | None =>
      match q with
      | Select fs os =>
          ({| data := rows (merge_sort (order_le os) (List.filter (selected fs) tbl));
              error := None |}, tbl)
      | Insert b =>
          if dangling ps (InsertBody.panchayat_id b) then refused PG23503 tbl
          else if bool_decide (uuid g ∈ CustomerAddress.id <$> tbl)
          then refused PG23505 tbl
          else ({| data := object (new_row g b); error := None |}, tbl ++ [new_row g b])
      | Update b fs single =>
          let hit := List.filter (selected fs) tbl in
          let tbl' := (fun r => if selected fs r then UpdateBody.apply b r else r) <$> tbl in
          if dangling ps (UpdateBody.panchayat_id b)
             && bool_decide (List.length hit ≠ 0%nat)
          then refused PG23503 tbl
          else if single then
            match hit with
            | [r] => ({| data := object (UpdateBody.apply b r); error := None |}, tbl')
            | _ => refused PGRST116 tbl
            end
          else ({| data := null; error := None |}, tbl')
      | Delete fs =>
          ({| data := null; error := None |},
           List.filter (fun r => negb (selected fs r)) tbl)
      end
  end.

(** ** The client: a state monad over the remote world *)

(** One round trip as the store saw it: the request, the answer and the
    table once the request was handled. *)
Record Event := { request : Request; response : Response; after : Table }.

Record World := {
  db : Table;                (* the rows of customer_addresses *)
  panchayats : list N;       (* the ids of the rows of panchayats *)
  log : list Event;          (* the round trips so far, oldest first *)
  net : list bool;           (* for the coming calls: [true] = the call fails *)
  gen : Generated;           (* what the server generates next *)
  clock : Timestamp          (* the client's [new Date()] *)
}.

(** Whether the [n]-th coming call fails (none does once the schedule is
    exhausted). *)
Definition fails (n : nat) (w : World) : bool := default false (net w !! n).

Definition Remote (A : Type) : Type := World → A * World.

Global Instance Remote_ret : MRet Remote := fun A a w => (a, w).
Global Instance Remote_bind : MBind Remote :=
  fun A B f m w => let '(a, w') := m w in f a w'.

(** [await supabase.from('customer_addresses')...]: one round trip.  A call
    that fails leaves the table as it is and answers with an error. *)
Definition rpc (q : Request) : Remote Response :=
  fun w =>
    let '(resp, tbl) :=
      if fails 0 w then ({| data := null; error := Some FetchError |}, db w)
      else serve (panchayats w) (gen w) q (db w) in
    (resp, {| db := tbl; panchayats := panchayats w;
              log := log w ++ [{| request := q; response := resp; after := tbl |}];
              net := tail (net w); gen := gen w; clock := clock w |}).

Definition new_Date : Remote Timestamp := fun w => (clock w, w).

(** ** The hook [useCustomerAddresses] *)

Module Auth.
Record User := { id : JsString }.
End Auth.

(** What a [mutationFn] or [queryFn] throws. *)
Inductive Thrown :=
  | User_not_authenticated              (* new Error('User not authenticated') *)
  | store_error (e : PostgrestError).   (* throw error *)

(** The promise of an async function, once settled. *)
Inductive Settled (A : Type) :=
  | Resolved (a : A)
  | Rejected (e : Thrown).
Arguments Resolved {A} a.
Arguments Rejected {A} e.

(** [if (c) { await m }] *)
Definition when_ {A} (c : bool) (m : Remote A) : Remote unit :=
  if c then _ ← m; mret () else mret ().

(** [if (error) throw error; return v] *)
Definition throw_or {A} (resp : Response) (v : A) : Settled A :=
  match error resp with
  | Some e => Rejected (store_error e)
  | None => Resolved v
  end.

Definition body_is_default (b : bool) : UpdateBody.t :=
  UpdateBody.mk None None None None None (Some b) None.

(** [.update({ is_default: false }).eq('user_id', user.id)] *)
Definition unset_defaults (u : Auth.User) : Request :=
  Update (body_is_default false) [eq_user_id (Auth.id u)] false.

(** [.update({ is_default: false }).eq('user_id', user.id).neq('id', id)] *)
Definition unset_other_defaults (u : Auth.User) (id : JsString) : Request :=
  Update (body_is_default false) [eq_user_id (Auth.id u); neq_id id] false.

(** [.update({ is_default: true, updated_at }).eq('id', id).eq('user_id', user.id)] *)
Definition set_default (u : Auth.User) (id : JsString) (t : Timestamp) : Request :=
  Update (UpdateBody.mk None None None None None (Some true) (Some t))
         [eq_id id; eq_user_id (Auth.id u)] false.

Definition order_default_first_newest_first : list Order :=
  [ {| column := col_is_default; ascending := false |};
    {| column := col_created_at; ascending := false |} ].

(** The [queryFn] of the query ['customer-addresses']. *)
Definition queryFn (user : option Auth.User) : Remote (Settled Data) :=
  match user with
  | None => mret (Resolved (rows []))
  | Some u =>
      resp ← rpc (Select [eq_user_id (Auth.id u)] order_default_first_newest_first);
      mret (throw_or resp (data resp))
  end.

Definition insert_body (u : Auth.User) (input : CreateAddressInput.t) : InsertBody.t :=
  {| InsertBody.user_id := Auth.id u;
     InsertBody.address_label := str_or (CreateAddressInput.address_label input) (lit "Home");
     InsertBody.full_address := CreateAddressInput.full_address input;
     InsertBody.landmark := str_or_null (CreateAddressInput.landmark input);
     InsertBody.panchayat_id := str_or_null (CreateAddressInput.panchayat_id input);
     InsertBody.ward_number := num_or_null (CreateAddressInput.ward_number input);
     InsertBody.is_default := flag (CreateAddressInput.is_default input) |}.

Definition createAddressMutation (user : option Auth.User)
    (input : CreateAddressInput.t) : Remote (Settled Data) :=
  match user with
  | None => mret (Rejected User_not_authenticated)
  | Some u =>
      (* If setting as default, unset other defaults first *)
      _ ← when_ (flag (CreateAddressInput.is_default input)) (rpc (unset_defaults u));
      resp ← rpc (Insert (insert_body u input));
      mret (throw_or resp (data resp))
  end.

(** [{ ...input, updated_at: new Date().toISOString() }] *)
Definition update_body (input : PartialInput.t) (t : Timestamp) : UpdateBody.t :=
  {| UpdateBody.address_label := PartialInput.address_label input;
     UpdateBody.full_address := PartialInput.full_address input;
     UpdateBody.landmark := PartialInput.landmark input;
     UpdateBody.panchayat_id := PartialInput.panchayat_id input;
     UpdateBody.ward_number := PartialInput.ward_number input;
     UpdateBody.is_default := PartialInput.is_default input;
     UpdateBody.updated_at := Some t |}.

Definition updateAddressMutation (user : option Auth.User)
    (id : JsString) (input : PartialInput.t) : Remote (Settled Data) :=
  match user with
  | None => mret (Rejected User_not_authenticated)
  | Some u =>
      (* If setting as default, unset other defaults first *)
      _ ← when_ (flag (PartialInput.is_default input)) (rpc (unset_other_defaults u id));
      t ← new_Date;
      resp ← rpc (Update (update_body input t) [eq_id id; eq_user_id (Auth.id u)] true);
      mret (throw_or resp (data resp))
  end.

Definition deleteAddressMutation (user : option Auth.User)
    (id : JsString) : Remote (Settled unit) :=
  match user with
  | None => mret (Rejected User_not_authenticated)
  | Some u =>
      resp ← rpc (Delete [eq_id id; eq_user_id (Auth.id u)]);
      mret (throw_or resp ())
  end.

Definition setDefaultAddressMutation (user : option Auth.User)
    (id : JsString) : Remote (Settled unit) :=
  match user with
  | None => mret (Rejected User_not_authenticated)
  | Some u =>
      (* Unset all defaults first *)
      _ ← rpc (unset_defaults u);
      (* Set the new default *)
      t ← new_Date;
      resp ← rpc (set_default u id t);
      mret (throw_or resp ())
  end.

(** [addresses?.find(a => a.is_default) || addresses?.[0]]; [addresses] is
    [undefined] until the query has data. *)
Definition defaultAddress (addresses : option (list CustomerAddress.t))
    : option CustomerAddress.t :=
  match addresses with
  | None => None
  | Some l =>
      match List.find CustomerAddress.is_default l with
      | Some a => Some a
      | None => head l
      end
  end.

(** The notifications shown by the hook and by the form. *)
Inductive Toast :=
  | Address_saved
  | Failed_to_save_address (e : Thrown)
  | Address_updated
  | Failed_to_update_address (e : Thrown)
  | Address_removed
  | Failed_to_delete_address (e : Thrown)
  | Default_address_updated
  | Address_required.

(** [queryClient.invalidateQueries]: the mounted query fetches the list again. *)
Definition invalidateQueries (user : option Auth.User) : Remote unit :=
  _ ← queryFn user; mret ().

(** [useMutation(...).mutate]: the [mutationFn], then [onSuccess] or [onError]. *)
Definition mutate {A} (user : option Auth.User) (fn : Remote (Settled A))
    (onSuccess : Toast) (onError : Thrown → option Toast) : Remote (option Toast) :=
  r ← fn;
  match r with
  | Resolved _ => _ ← invalidateQueries user; mret (Some onSuccess)
  | Rejected e => mret (onError e)
  end.

Definition createAddress (user : option Auth.User) (input : CreateAddressInput.t)
    : Remote (option Toast) :=
  mutate user (createAddressMutation user input)
    Address_saved (fun e => Some (Failed_to_save_address e)).

Definition updateAddress (user : option Auth.User) (id : JsString)
    (input : PartialInput.t) : Remote (option Toast) :=
  mutate user (updateAddressMutation user id input)
    Address_updated (fun e => Some (Failed_to_update_address e)).

Definition deleteAddress (user : option Auth.User) (id : JsString)
    : Remote (option Toast) :=
  mutate user (deleteAddressMutation user id)
    Address_removed (fun e => Some (Failed_to_delete_address e)).

Definition setDefaultAddress (user : option Auth.User) (id : JsString)
    : Remote (option Toast) :=
  mutate user (setDefaultAddressMutation user id)
    Default_address_updated (fun _ => None).

(** ** The form of [AddressSelector] *)

Record Form := {
  addressLabel : JsString;
  fullAddress : JsString;
  form_landmark : JsString;
  isDefault : bool;
  editingAddress : option CustomerAddress.t
}.

(** [useLocation()]: the selected panchayat's id and the selected ward. *)
Record Location := {
  selectedPanchayat_id : option JsString;
  selectedWardNumber : option Z
}.

Definition handleSaveAddress (user : option Auth.User) (loc : Location)
    (f : Form) : Remote (option Toast) :=
  if negb (str_truthy (trim (fullAddress f))) then mret (Some Address_required)
  else
    let landmark := str_or_null (Some (form_landmark f)) in
    let ward := num_or_null (selectedWardNumber loc) in
    match editingAddress f with
    | Some a =>
        updateAddress user (CustomerAddress.id a)
          {| PartialInput.address_label := Some (addressLabel f);
             PartialInput.full_address := Some (fullAddress f);
             PartialInput.landmark := landmark;
             PartialInput.panchayat_id := selectedPanchayat_id loc;
             PartialInput.ward_number := ward;
             PartialInput.is_default := Some (isDefault f) |}
    | None =>
        createAddress user
          {| CreateAddressInput.address_label := Some (addressLabel f);
             CreateAddressInput.full_address := fullAddress f;
             CreateAddressInput.landmark := landmark;
             CreateAddressInput.panchayat_id := selectedPanchayat_id loc;
             CreateAddressInput.ward_number := ward;
             CreateAddressInput.is_default := Some (isDefault f) |}
    end.

(** The effect that sets the initial selection: the address it selects, if
    any ([addresses] is the hook's [addresses || []]). *)
Definition initial_selection (addresses : list CustomerAddress.t)
    (selectedAddressId : JsString) : option CustomerAddress.t :=
  if bool_decide (0 < List.length addresses)%nat && negb (str_truthy selectedAddressId)
  then match List.find CustomerAddress.is_default addresses with
       | Some a => Some a
       | None => head addresses
       end
  else None.

(** [resetForm]: the form as [openAddDialog] shows it. *)
Definition resetForm : Form :=
  {| addressLabel := lit "Home"; fullAddress := []; form_landmark := [];
     isDefault := false; editingAddress := None |}.

(** [openEditDialog(address)]: the form filled from a listed address. *)
Definition openEditDialog (address : CustomerAddress.t) : Form :=
  {| addressLabel := str_or (Some (CustomerAddress.address_label address)) (lit "Home");
     fullAddress := CustomerAddress.full_address address;
     form_landmark := default [] (CustomerAddress.landmark address);
     isDefault := CustomerAddress.is_default address;
     editingAddress := Some address |}.

(** The selection state of the selector and what it reports to its parent. *)
Record Selection := { selectedAddressId : JsString; showManualInput : bool }.

Inductive Callback :=
  | onAddressChange (address : JsString)
  | onAddressSelect (address : CustomerAddress.t).

(** What a handler reports for an address it has picked. *)
Definition report (o : option CustomerAddress.t) : list Callback :=
  match o with
  | Some a => [onAddressChange (CustomerAddress.full_address a); onAddressSelect a]
  | None => []
  end.

Definition handleSelectAddress (addresses : list CustomerAddress.t)
    (addressId : JsString) (st : Selection) : Selection * list Callback :=
  if bool_decide (addressId = lit "new")
  then ({| selectedAddressId := []; showManualInput := true |}, [])
  else ({| selectedAddressId := addressId; showManualInput := false |},
        report (List.find (fun a => bool_decide (CustomerAddress.id a = addressId))
                          addresses)).

(** The initial-selection effect as a step on the selection state. *)
Definition initial_selection_effect (addresses : list CustomerAddress.t)
    (st : Selection) : Selection * list Callback :=
  match initial_selection addresses (selectedAddressId st) with
  | Some a =>
      ({| selectedAddressId := CustomerAddress.id a;
          showManualInput := showManualInput st |}, report (Some a))
  | None => (st, [])
  end.

(** ** The mutations of the hook, as one family *)

Inductive Mutation :=
  | create (input : CreateAddressInput.t)
  | update (id : JsString) (input : PartialInput.t)
  | delete (id : JsString)
  | setDefault (id : JsString).

Definition resolved {A} (s : Settled A) : bool :=
  match s with Resolved _ => true | Rejected _ => false end.

(** One invocation: whether the promise resolved, and the world it leaves. *)
Definition invoke (user : option Auth.User) (m : Mutation) : Remote bool :=
  fun w =>
    match m with
    | create input =>
        (resolved (createAddressMutation user input w).1,
         (createAddressMutation user input w).2)
    | update id input =>
        (resolved (updateAddressMutation user id input w).1,
         (updateAddressMutation user id input w).2)
    | delete id =>
        (resolved (deleteAddressMutation user id w).1,
         (deleteAddressMutation user id w).2)
    | setDefault id =>
        (resolved (setDefaultAddressMutation user id w).1,
         (setDefaultAddressMutation user id w).2)
    end.

(** Whether the first call of the invocation is the one that unsets defaults. *)
Definition unsets_first (m : Mutation) : bool :=
  match m with
  | create input => flag (CreateAddressInput.is_default input)
  | update _ input => flag (PartialInput.is_default input)
  | delete _ => false
  | setDefault _ => true
  end.

(** ** The vocabulary of the properties *)

Definition blank (s : JsString) : Prop := Forall (fun c => is_white_space c = true) s.

Definition no_default (l : list CustomerAddress.t) : Prop :=
  Forall (fun r => CustomerAddress.is_default r = false) l.

Definition fetch_error : Response := {| data := null; error := Some FetchError |}.

(** The comparison on one key is the comparison of integers, negated keys
    for a descending order. *)
Definition signed_key (o : Order) (r : CustomerAddress.t) : Z :=
  if ascending o then sort_key (column o) r else - sort_key (column o) r.

(** The order the query asks for, in words: a default address before one
    that is not, and among addresses with the same flag the newer first. *)
Definition default_first_newest_first (a b : CustomerAddress.t) : Prop :=
  (CustomerAddress.is_default a = true ∧ CustomerAddress.is_default b = false)
  ∨ (CustomerAddress.is_default a = CustomerAddress.is_default b
     ∧ CustomerAddress.created_at b ≤ CustomerAddress.created_at a).

Definition owned_by (u : Auth.User) (r : CustomerAddress.t) : bool :=
  bool_decide (CustomerAddress.user_id r = Auth.id u).

Definition addresses_of (u : Auth.User) (tbl : Table) : Table :=
  List.filter (owned_by u) tbl.

(** The rows an [update] leaves: every selected row patched, in place. *)
Definition updated (b : UpdateBody.t) (fs : list Filter) (tbl : Table) : Table :=
  (fun r => if selected fs r then UpdateBody.apply b r else r) <$> tbl.

(** No row of the table has this id, as a uuid, and this owner. *)
Definition not_owned (u : Auth.User) (id : JsString) (tbl : Table) : Prop :=
  ∀ r, r ∈ tbl →
    ¬ (uuid_in (CustomerAddress.id r) = uuid_in id
       ∧ CustomerAddress.user_id r = Auth.id u).

(** [create], call by call: the world once the defaults have been unset
    (when the input asks for the default); the insert runs in it. *)
Definition after_unset (u : Auth.User) (input : CreateAddressInput.t) (w : World) : World :=
  if flag (CreateAddressInput.is_default input)
  then (rpc (unset_defaults u) w).2 else w.

(** [update], call by call: the world once the other defaults have been
    unset (when the input asks for the default); the final call runs in it. *)
Definition after_unset_others (u : Auth.User) (id : JsString)
    (input : PartialInput.t) (w : World) : World :=
  if flag (PartialInput.is_default input)
  then (rpc (unset_other_defaults u id) w).2 else w.

Definition final_update (u : Auth.User) (id : JsString) (input : PartialInput.t)
    (w1 : World) : Request :=
  Update (update_body input (clock w1)) [eq_id id; eq_user_id (Auth.id u)] true.

(** The rows of an owner that are flagged as default. *)
Definition is_default_of (owner : JsString) (r : CustomerAddress.t) : bool :=
  bool_decide (CustomerAddress.user_id r = owner) && CustomerAddress.is_default r.

Definition defaults_of (owner : JsString) (tbl : Table) : Table :=
  List.filter (is_default_of owner) tbl.

Definition single_default (owner : JsString) (tbl : Table) : Prop :=
  (List.length (defaults_of owner tbl) ≤ 1)%nat.

(** [id] is the primary key of the table, of type uuid: no two rows have
    the same id, and each id is the text of a uuid as the store shows it. *)
Definition unique_ids (tbl : Table) : Prop :=
  NoDup (CustomerAddress.id <$> tbl) ∧ Forall canonical (CustomerAddress.id <$> tbl).

(** The functions the hook exports: the mutation wrapped by [mutate]. *)
Definition exported (user : option Auth.User) (m : Mutation) : Remote (option Toast) :=
  match m with
  | create input => createAddress user input
  | update id input => updateAddress user id input
  | delete id => deleteAddress user id
  | setDefault id => setDefaultAddress user id
  end.

(** The rows that do not belong to the user. *)
Definition others (u : Auth.User) (tbl : Table) : Table :=
  List.filter (fun r => negb (owned_by u r)) tbl.

(** The columns no request of the hook writes to. *)
Definition identity (r : CustomerAddress.t) : JsString * JsString * Timestamp :=
  (CustomerAddress.id r, CustomerAddress.user_id r, CustomerAddress.created_at r).

(** The call that unsets defaults, for the mutations that start with one. *)
Definition unset_request (u : Auth.User) (m : Mutation) : option Request :=
  match m with
  | create input =>
      if flag (CreateAddressInput.is_default input) then Some (unset_defaults u) else None
  | update id input =>
      if flag (PartialInput.is_default input)
      then Some (unset_other_defaults u id) else None
  | delete _ => None
  | setDefault _ => Some (unset_defaults u)
  end.

(** The world once the call that unsets defaults, if any, has been made. *)
Definition world_after_unset (u : Auth.User) (m : Mutation) (w : World) : World :=
  match unset_request u m with
  | Some q => (rpc q w).2
  | None => w
  end.

(** The last call of a mutation, the one whose error it throws. *)
Definition final_request (u : Auth.User) (m : Mutation) (w : World) : Request :=
  match m with
  | create input => Insert (insert_body u input)
  | update id input =>
      Update (update_body input (clock w)) [eq_id id; eq_user_id (Auth.id u)] true
  | delete id => Delete [eq_id id; eq_user_id (Auth.id u)]
  | setDefault id => set_default u id (clock w)
  end.

(** A request that can only touch rows of the user. *)
Definition scoped (u : Auth.User) (q : Request) : Prop :=
  match q with
  | Select _ _ => True
  | Insert b => InsertBody.user_id b = Auth.id u
  | Update _ fs _ | Delete fs => eq_user_id (Auth.id u) ∈ fs
  end.

(** The input that [handleSaveAddress] builds from the form for a create,
    and for an update. *)
Definition addressData (loc : Location) (f : Form) : CreateAddressInput.t :=
  {| CreateAddressInput.address_label := Some (addressLabel f);
     CreateAddressInput.full_address := fullAddress f;
     CreateAddressInput.landmark := str_or_null (Some (form_landmark f));
     CreateAddressInput.panchayat_id := selectedPanchayat_id loc;
     CreateAddressInput.ward_number := num_or_null (selectedWardNumber loc);
     CreateAddressInput.is_default := Some (isDefault f) |}.

Definition addressPatch (loc : Location) (f : Form) : PartialInput.t :=
  {| PartialInput.address_label := Some (addressLabel f);
     PartialInput.full_address := Some (fullAddress f);
     PartialInput.landmark := str_or_null (Some (form_landmark f));
     PartialInput.panchayat_id := selectedPanchayat_id loc;
     PartialInput.ward_number := num_or_null (selectedWardNumber loc);
     PartialInput.is_default := Some (isDefault f) |}.

(** No call fails. *)
Definition reliable (w : World) : Prop := ∀ n, fails n w = false.

(** ** Scenarios *)

Module Scenario.
(** The uuid whose last digit is [d] and whose first digits are [pre]. *)
Definition uid (pre d : string) : JsString :=
  lit pre ++ lit "00000-0000-4000-8000-00000000000" ++ lit d.

Definition alice : Auth.User := {| Auth.id := uid "a11" "1" |}.
Definition bob : Auth.User := {| Auth.id := uid "b0b" "2" |}.

(** The address whose id ends with the digit [d]. *)
Definition address (d : string) (u : Auth.User) (is_default : bool)
    (created : Timestamp) : CustomerAddress.t :=
  {| CustomerAddress.id := uid "add" d;
     CustomerAddress.user_id := Auth.id u;
     CustomerAddress.address_label := lit "Home";
     CustomerAddress.full_address := lit "12 Palm Rd";
     CustomerAddress.landmark := None;
     CustomerAddress.panchayat_id := None;
     CustomerAddress.ward_number := None;
     CustomerAddress.is_default := is_default;
     CustomerAddress.created_at := created;
     CustomerAddress.updated_at := created |}.

(** What [gen_random_uuid()] gives when the server is to generate [s]. *)
Definition generates (s : JsString) : dsig canonical :=
  match decide (canonical s) with
  | left H => dexist s H
  | right _ => dexist (uuid_out 0) eq_refl
  end.

(** The one panchayat there is. *)
Definition panchayat : JsString := uid "9a9" "7".

(** A world with the given rows and failure schedule; the server will
    generate the id that ends with [f] at time 100, the client's clock
    reads 50. *)
Definition world (tbl : Table) (sched : list bool) : World :=
  {| db := tbl; panchayats := omap uuid_in [panchayat]; log := []; net := sched;
     gen := {| gen_random_uuid := generates (uid "add" "f"); now := 100 |};
     clock := 50 |}.

Definition A := address "a" alice true 1.
Definition B := address "b" alice false 2.
Definition C := address "c" bob true 3.

Definition input (full : string) (landmark : option string) (ward : option Z)
    (is_default : option bool) (label : option string) : CreateAddressInput.t :=
  {| CreateAddressInput.address_label := lit <$> label;
     CreateAddressInput.full_address := lit full;
     CreateAddressInput.landmark := lit <$> landmark;
     CreateAddressInput.panchayat_id := None;
     CreateAddressInput.ward_number := ward;
     CreateAddressInput.is_default := is_default |}.

Definition world0 : World := world [] [].

(** The environment moves on between two invocations: the calls that will
    fail, the id the server generates next, the time. *)
Definition then_ (sched : list bool) (d : string) (t : Timestamp) : Remote unit :=
  fun w =>
    ((), {| db := db w; panchayats := panchayats w; log := log w; net := sched;
            gen := {| gen_random_uuid := generates (uid "add" d); now := t |};
            clock := t |}).

(** A history that starts from the empty table: the user saves a first
    address as the default, saves a second one, then makes the second the
    default while the call that unsets the defaults fails. *)
Definition history_failed_unset : Remote bool :=
  _ ← then_ [] "a" 1;
  _ ← invoke (Some alice) (create (input "12 Palm Rd" None None (Some true) None));
  _ ← then_ [] "b" 2;
  _ ← invoke (Some alice) (create (input "7 Lake Rd" None None None None));
  _ ← then_ [true] "c" 3;
  invoke (Some alice) (setDefault (CustomerAddress.id B)).
End Scenario.
(** * Properties *)

Import Scenario.

(** ** Strings *)

Lemma trim_start_blank s : blank s → trim_start s = [].
Proof. induction 1 as [|c s Hc _ IH]; simpl; [done|]. by rewrite Hc. Qed.

Lemma blank_trim_start s : blank (trim_start s) → blank s.
Proof.
  induction s as [|c s IH]; simpl; [done|].
  destruct (is_white_space c) eqn:Hc; simpl; [|done].
  intros H. constructor; [done | by apply IH].
Qed.

(** [!s.trim()] holds exactly of the strings made of white space only. *)
Lemma trim_blank s : trim s = [] ↔ blank s.
Proof.
  unfold trim, trim_end. split.
  - intros H. apply blank_trim_start.
    apply (f_equal reverse) in H. rewrite reverse_involutive in H.
    change (reverse []) with (@nil N) in H.
    assert (Hb : blank (reverse (trim_start s))).
    { apply blank_trim_start. rewrite H. constructor. }
    unfold blank in *. rewrite <- (reverse_involutive (trim_start s)).
    by apply Forall_reverse.
  - intros H. by rewrite (trim_start_blank _ H).
Qed.

(** ** One round trip *)

Lemma fails_tail n w w' : net w' = tail (net w) → fails n w' = fails (S n) w.
Proof. unfold fails. intros ->. by destruct (net w). Qed.

Lemma rpc_response q w :
  (rpc q w).1 = if fails 0 w then fetch_error else (serve (panchayats w) (gen w) q (db w)).1.
Proof. unfold rpc. destruct (fails 0 w); [done|]. by destruct (serve _ _ _). Qed.

Lemma rpc_db q w :
  db (rpc q w).2 = if fails 0 w then db w else (serve (panchayats w) (gen w) q (db w)).2.
Proof. unfold rpc. destruct (fails 0 w); [done|]. by destruct (serve _ _ _). Qed.

Lemma rpc_log q w :
  log (rpc q w).2
  = log w ++ [{| request := q; response := (rpc q w).1; after := db (rpc q w).2 |}].
Proof. unfold rpc. destruct (fails 0 w); [done|]. by destruct (serve _ _ _). Qed.

Lemma rpc_clock q w : clock (rpc q w).2 = clock w.
Proof. unfold rpc. destruct (fails 0 w); [done|]. by destruct (serve _ _ _). Qed.

Lemma rpc_gen q w : gen (rpc q w).2 = gen w.
Proof. unfold rpc. destruct (fails 0 w); [done|]. by destruct (serve _ _ _). Qed.

Lemma rpc_panchayats q w : panchayats (rpc q w).2 = panchayats w.
Proof. unfold rpc. destruct (fails 0 w); [done|]. by destruct (serve _ _ _). Qed.

Lemma rpc_fails_next q w n : fails n (rpc q w).2 = fails (S n) w.
Proof.
  apply fails_tail. unfold rpc. destruct (fails 0 w); [done|].
  by destruct (serve _ _ _).
Qed.

(** ** The store, request by request *)

(** A call answered with an error has changed nothing. *)
Lemma serve_error_unchanged ps g q tbl e :
  error (serve ps g q tbl).1 = Some e → (serve ps g q tbl).2 = tbl.
Proof.
  unfold serve. destruct (type_error q); [done|].
  destruct q as [fs os|b|b fs single|fs]; try done.
  - destruct (dangling _ _); [done|]. by case_bool_decide.
  - destruct (dangling _ _ && _); [done|]. destruct single; [|done].
    by destruct (List.filter _ tbl) as [|r [|r' l]].
Qed.

(** An insert either is refused or appends the new row, whose id is fresh. *)
Lemma serve_insert ps g b tbl :
  (∃ e, serve ps g (Insert b) tbl = refused e tbl)
  ∨ ((uuid g ∉ (CustomerAddress.id <$> tbl))
     ∧ serve ps g (Insert b) tbl
       = ({| data := object (new_row g b); error := None |}, tbl ++ [new_row g b])).
Proof.
  unfold serve. destruct (type_error _); [by eauto|].
  destruct (dangling _ _); [by eauto|]. case_bool_decide; by eauto.
Qed.

(** An update that is to return its row either is refused or has found
    exactly one row, and patched it. *)
Lemma serve_update_single ps g b fs tbl :
  (∃ e, serve ps g (Update b fs true) tbl = refused e tbl)
  ∨ (∃ r, List.filter (selected fs) tbl = [r]
        ∧ head (omap filter_error fs) = None
        ∧ serve ps g (Update b fs true) tbl
          = ({| data := object (UpdateBody.apply b r); error := None |},
             updated b fs tbl)).
Proof.
  unfold serve, type_error. destruct (head (omap filter_error fs)); [by eauto|].
  destruct (body_error _ _); [by eauto|].
  destruct (dangling _ _ && _); [by eauto|].
  destruct (List.filter _ tbl) as [|r [|r' l]]; by eauto.
Qed.

(** Any other update either is refused or patches the rows it selects. *)
Lemma serve_update ps g b fs tbl :
  (∃ e, serve ps g (Update b fs false) tbl = refused e tbl)
  ∨ (head (omap filter_error fs) = None
     ∧ serve ps g (Update b fs false) tbl
       = ({| data := null; error := None |}, updated b fs tbl)).
Proof.
  unfold serve, type_error. destruct (head (omap filter_error fs)); [by eauto|].
  destruct (body_error _ _); [by eauto|].
  destruct (dangling _ _ && _); by eauto.
Qed.

(** The updates that only write [is_default] and [updated_at] are refused
    for the values of their filters alone. *)
Lemma serve_update_flag ps g d t fs tbl :
  serve ps g (Update (UpdateBody.mk None None None None None d t) fs false) tbl
  = match head (omap filter_error fs) with
    | Some e => refused e tbl
    | None =>
        ({| data := null; error := None |},
         updated (UpdateBody.mk None None None None None d t) fs tbl)
    end.
Proof. unfold serve, type_error. by destruct (head (omap filter_error fs)). Qed.

Lemma serve_unset_defaults ps g u tbl :
  serve ps g (unset_defaults u) tbl
  = ({| data := null; error := None |},
     updated (body_is_default false) [eq_user_id (Auth.id u)] tbl).
Proof. done. Qed.

Lemma filters_id_user id u :
  head (omap filter_error [eq_id id; eq_user_id (Auth.id u)])
  = if is_uuid id then None else Some PG22P02.
Proof. simpl. by destruct (is_uuid id). Qed.

Lemma filters_user_not_id id u :
  head (omap filter_error [eq_user_id (Auth.id u); neq_id id])
  = if is_uuid id then None else Some PG22P02.
Proof. simpl. by destruct (is_uuid id). Qed.

Lemma serve_unset_other_defaults ps g u id tbl :
  serve ps g (unset_other_defaults u id) tbl
  = if is_uuid id
    then ({| data := null; error := None |},
          updated (body_is_default false) [eq_user_id (Auth.id u); neq_id id] tbl)
    else refused PG22P02 tbl.
Proof.
  unfold unset_other_defaults, body_is_default.
  rewrite serve_update_flag, filters_user_not_id. by destruct (is_uuid id).
Qed.

Lemma serve_set_default ps g u id t tbl :
  serve ps g (set_default u id t) tbl
  = if is_uuid id
    then ({| data := null; error := None |},
          updated (UpdateBody.mk None None None None None (Some true) (Some t))
            [eq_id id; eq_user_id (Auth.id u)] tbl)
    else refused PG22P02 tbl.
Proof.
  unfold set_default. rewrite serve_update_flag, filters_id_user.
  by destruct (is_uuid id).
Qed.

(** A delete either is refused for the values of its filters or drops the
    rows it selects. *)
Lemma serve_delete ps g fs tbl :
  serve ps g (Delete fs) tbl
  = match head (omap filter_error fs) with
    | Some e => refused e tbl
    | None =>
        ({| data := null; error := None |},
         List.filter (fun r => negb (selected fs r)) tbl)
    end.
Proof. unfold serve, type_error. by destruct (head (omap filter_error fs)). Qed.

(** The table a request leaves is the table, or the table updated, or the
    table with the new row, or the table without the rows deleted. *)
Lemma serve_db ps g q tbl :
  (serve ps g q tbl).2 = tbl
  ∨ match q with
    | Select _ _ => False
    | Insert b =>
        (uuid g ∉ (CustomerAddress.id <$> tbl))
        ∧ (serve ps g q tbl).2 = tbl ++ [new_row g b]
    | Update b fs _ =>
        head (omap filter_error fs) = None ∧ (serve ps g q tbl).2 = updated b fs tbl
    | Delete fs =>
        (serve ps g q tbl).2 = List.filter (fun r => negb (selected fs r)) tbl
    end.
Proof.
  destruct q as [fs os|b|b fs single|fs].
  - left. unfold serve. by destruct (type_error _).
  - destruct (serve_insert ps g b tbl) as [[e ->]|[Hfresh ->]]; [by left | by right].
  - destruct single.
    + destruct (serve_update_single ps g b fs tbl) as [[e ->]|(r & _ & Hfs & ->)];
        [by left | by right].
    + destruct (serve_update ps g b fs tbl) as [[e ->]|[Hfs ->]]; [by left | by right].
  - rewrite serve_delete. destruct (head _); [by left | by right].
Qed.

(** ** [defaultAddress] and the initial selection *)

Lemma find_no_default l : no_default l → List.find CustomerAddress.is_default l = None.
Proof. induction 1 as [|r l Hr _ IH]; simpl; [done|]. by rewrite Hr. Qed.

Lemma find_first_default l1 a l2 :
  no_default l1 → CustomerAddress.is_default a = true →
  List.find CustomerAddress.is_default (l1 ++ a :: l2) = Some a.
Proof.
  intros H Ha. induction H as [|r l Hr _ IH]; simpl.
  - by rewrite Ha.
  - by rewrite Hr.
Qed.

(** C6. [defaultAddress], the derivation of the initial selection, is a
    function of the list alone (it is not a [Remote] computation, so it
    issues no call).  It gives nothing on the empty list; when [a] is the one
    address flagged as default, it gives [a] wherever [a] stands in the list;
    and when no address is flagged it gives the first one.  The effect of the
    selector that picks the initial address computes the same value as long
    as nothing is selected yet. *)
Theorem defaultAddress_spec (l1 l2 : list CustomerAddress.t) (a : CustomerAddress.t) :
  no_default l1 → no_default l2 →
  defaultAddress (Some []) = None
  ∧ (CustomerAddress.is_default a = true →
     defaultAddress (Some (l1 ++ a :: l2)) = Some a)
  ∧ (CustomerAddress.is_default a = false →
     defaultAddress (Some (a :: l2)) = Some a)
  ∧ initial_selection (l1 ++ a :: l2) [] = defaultAddress (Some (l1 ++ a :: l2)).
Proof.
  intros H1 H2. split; [done|]. split; [|split].
  - intros Ha. simpl. by rewrite find_first_default.
  - intros Ha. simpl. rewrite Ha. by rewrite find_no_default.
  - unfold initial_selection. rewrite bool_decide_true; [done|].
    rewrite length_app. simpl. lia.
Qed.

Lemma defaultAddress_spec_witness :
  defaultAddress (Some ([B; B] ++ A :: [B])) = Some A
  ∧ defaultAddress (Some (B :: [B])) = Some B.
Proof.
  assert (H1 : no_default [B; B]) by (repeat constructor).
  assert (H2 : no_default [B]) by (repeat constructor).
  split.
  - by apply (defaultAddress_spec [B; B] [B] A H1 H2).
  - by apply (defaultAddress_spec [B; B] [B] B H1 H2).
Defined.

(** ** Creating an address *)

Lemma createAddressMutation_calls u input w :
  createAddressMutation (Some u) input w
  = (throw_or (rpc (Insert (insert_body u input)) (after_unset u input w)).1
              (data (rpc (Insert (insert_body u input)) (after_unset u input w)).1),
     (rpc (Insert (insert_body u input)) (after_unset u input w)).2).
Proof.
  unfold createAddressMutation, after_unset, when_, mbind, mret, Remote_bind, Remote_ret.
  destruct (flag (CreateAddressInput.is_default input)).
  - destruct (rpc (unset_defaults u) w) as [resp1 w1]. cbn [snd].
    by destruct (rpc _ w1).
  - by destruct (rpc _ w).
Qed.

Lemma after_unset_gen u input w : gen (after_unset u input w) = gen w.
Proof. unfold after_unset. destruct (flag _); [apply rpc_gen | done]. Qed.

(** What [createAddressMutation] resolves with is the row the store built
    from the insert body, and that row is in the table afterwards. *)
Lemma createAddressMutation_resolved u input w d w' :
  createAddressMutation (Some u) input w = (Resolved d, w') →
  d = object (new_row (gen w) (insert_body u input))
  ∧ new_row (gen w) (insert_body u input) ∈ db w'.
Proof.
  rewrite createAddressMutation_calls. intros [= Hres <-].
  rewrite rpc_response in Hres. rewrite rpc_db, after_unset_gen in *.
  destruct (fails 0 (after_unset u input w)); [done|].
  destruct (serve_insert (panchayats (after_unset u input w)) (gen w)
              (insert_body u input) (db (after_unset u input w)))
    as [[e He]|[_ He]]; rewrite He in *; [done|].
  cbn [fst snd data error throw_or] in *. injection Hres as <-.
  split; [done|]. set_solver.
Qed.

(** C10. The create mutation coerces falsy optional inputs before the insert:
    a ward number of 0 is stored as null, an empty landmark is stored as
    null and an empty label is stored as 'Home'.  The row stored (and
    returned) therefore differs from the input on these values. *)
Theorem create_coerces_falsy_inputs u input w d w' :
  createAddressMutation (Some u) input w = (Resolved d, w') →
  ∃ r, d = object r ∧ r ∈ db w'
    ∧ (CreateAddressInput.ward_number input = Some 0 →
       CustomerAddress.ward_number r = None)
    ∧ (CreateAddressInput.landmark input = Some [] →
       CustomerAddress.landmark r = None)
    ∧ (CreateAddressInput.address_label input = Some [] →
       CustomerAddress.address_label r = lit "Home").
Proof.
  intros H. apply createAddressMutation_resolved in H as [-> Hin].
  eexists; split; [done|]. split; [done|].
  unfold new_row, insert_body; simpl. repeat split; by intros ->.
Qed.

Lemma create_coerces_falsy_inputs_witness :
  ∃ r, r ∈ [A; new_row (gen (world [A] [])) (insert_body alice (input "12 Palm Rd" (Some EmptyString) (Some 0) None (Some EmptyString)))]
    ∧ CustomerAddress.ward_number r = None
    ∧ CustomerAddress.landmark r = None
    ∧ CustomerAddress.address_label r = lit "Home".
Proof.
  destruct (create_coerces_falsy_inputs alice
              (input "12 Palm Rd" (Some EmptyString) (Some 0) None (Some EmptyString))
              (world [A] []) _ _ ltac:(vm_compute; reflexivity))
    as (r & _ & Hin & Hw & Hl & Ha).
  exists r. split; [exact Hin|]. 
  split; [by apply Hw|]. split; [by apply Hl | by apply Ha].
Defined.

(** C2, on the mutation itself: [createAddressMutation] checks nothing.  For
    a signed-in user and a full address made of two spaces it issues both of
    its calls, the clearing of the defaults and the insert, and resolves
    with the stored row, whose full address is the blank string. *)
Lemma createAddressMutation_sends_blank_address :
  blank (CreateAddressInput.full_address (input "  " None None (Some true) None))
  ∧ (request <$>
       log (createAddressMutation (Some alice) (input "  " None None (Some true) None)
              (world [A] [])).2)
     = [unset_defaults alice;
        Insert (insert_body alice (input "  " None None (Some true) None))]
  ∧ ∃ r, (createAddressMutation (Some alice) (input "  " None None (Some true) None)
            (world [A] [])).1 = Resolved (object r)
       ∧ CustomerAddress.full_address r = lit "  ".
Proof.
  split; [by repeat constructor|]. split; [by vm_compute|].
  eexists. split; by vm_compute.
Qed.

(** C2, as the code has it.  The check for a blank address is the guard of
    the form's save handler: when the full address typed into the form is
    empty or made of white space only, [handleSaveAddress] shows 'Address
    required' and calls neither [createAddress] nor [updateAddress], so the
    world, and with it the log of round trips, is what it was. *)
Theorem handleSaveAddress_blank_address user loc f w :
  blank (fullAddress f) →
  handleSaveAddress user loc f w = (Some Address_required, w).
Proof.
  intros H. unfold handleSaveAddress.
  apply trim_blank in H. by rewrite H.
Qed.

Lemma handleSaveAddress_blank_address_witness :
  handleSaveAddress (Some alice) (Build_Location None (Some 4))
    (Build_Form (lit "Work") (lit "   ") (lit "near the temple") true None)
    (world [A] [])
  = (Some Address_required, world [A] []).
Proof.
  apply handleSaveAddress_blank_address. by repeat constructor.
Defined.

(** ** The ordering of the list *)

Section order.
Variable os : list Order.

Lemma order_compare1_signed o a b :
  order_compare1 o a b = (signed_key o a ?= signed_key o b).
Proof.
  unfold order_compare1, signed_key. destruct (ascending o); [done|].
  by rewrite Z.compare_opp.
Qed.

Lemma order_compare_antisym a b :
  order_compare os b a = CompOpp (order_compare os a b).
Proof.
  induction os as [|o os' IH]; simpl; [done|].
  rewrite !order_compare1_signed, (Z.compare_antisym (signed_key o a)).
  by destruct (signed_key o a ?= signed_key o b).
Qed.

Global Instance order_le_total : Total (order_le os).
Proof.
  intros a b. unfold order_le. rewrite (order_compare_antisym a b).
  destruct (order_compare os a b); simpl; auto.
Qed.

Global Instance order_le_trans : Transitive (order_le os).
Proof.
  intros a b c. unfold order_le.
  induction os as [|o os' IH]; simpl; [done|].
  rewrite !order_compare1_signed.
  destruct (Z.compare_spec (signed_key o a) (signed_key o b)),
           (Z.compare_spec (signed_key o b) (signed_key o c)),
           (Z.compare_spec (signed_key o a) (signed_key o c));
    try done; try lia; auto.
Qed.

Lemma select_sorted ps g fs tbl :
  head (omap filter_error fs) = None →
  ∃ l, (serve ps g (Select fs os) tbl).1 = {| data := rows l; error := None |}
     ∧ (serve ps g (Select fs os) tbl).2 = tbl
     ∧ l ≡ₚ List.filter (selected fs) tbl
     ∧ StronglySorted (order_le os) l.
Proof.
  intros Hfs. unfold serve, type_error. rewrite Hfs.
  eexists. split; [done|]. split; [done|]. split.
  - apply merge_sort_Permutation.
  - apply StronglySorted_merge_sort; apply _.
Qed.
End order.

Lemma order_le_default_first_newest_first a b :
  order_le order_default_first_newest_first a b → default_first_newest_first a b.
Proof.
  unfold order_le, default_first_newest_first, order_default_first_newest_first.
  simpl. unfold order_compare1. simpl.
  destruct (CustomerAddress.is_default a), (CustomerAddress.is_default b); simpl;
    try (intros _; left; done); try done;
    destruct (Z.compare_spec (CustomerAddress.created_at b) (CustomerAddress.created_at a));
    intros Hle; try done; right; split; try done; lia.
Qed.

Lemma selected_eq_user_id u r : selected [eq_user_id (Auth.id u)] r = owned_by u r.
Proof. unfold selected, owned_by. simpl. by rewrite andb_true_r. Qed.

Lemma queryFn_calls u w :
  queryFn (Some u) w
  = (throw_or (rpc (Select [eq_user_id (Auth.id u)] order_default_first_newest_first) w).1
              (data (rpc (Select [eq_user_id (Auth.id u)]
                            order_default_first_newest_first) w).1),
     (rpc (Select [eq_user_id (Auth.id u)] order_default_first_newest_first) w).2).
Proof.
  unfold queryFn, mbind, mret, Remote_bind, Remote_ret. by destruct (rpc _ w).
Qed.

(** C3. For a signed-in user, when the store answers the call, the query
    resolves with the rows of that user (all of them, each once), the
    default addresses first and then by creation time, newest first. *)
Theorem list_default_first_newest_first u w :
  fails 0 w = false →
  ∃ l, (queryFn (Some u) w).1 = Resolved (rows l)
     ∧ l ≡ₚ addresses_of u (db w)
     ∧ StronglySorted default_first_newest_first l.
Proof.
  intros Hnet. rewrite queryFn_calls. cbn [fst]. rewrite rpc_response, Hnet.
  destruct (select_sorted order_default_first_newest_first (panchayats w) (gen w)
              [eq_user_id (Auth.id u)] (db w) eq_refl) as (l & -> & _ & Hp & Hs).
  exists l. split; [done|]. split.
  - rewrite Hp. unfold addresses_of.
    erewrite List.filter_ext; [done|]. intros r. apply selected_eq_user_id.
  - clear -Hs. induction Hs as [|a l Hs IH Ha]; constructor; [done|].
    eapply Forall_impl; [exact Ha|]. intros b. apply order_le_default_first_newest_first.
Qed.

Lemma list_default_first_newest_first_witness :
  ∃ l, (queryFn (Some alice) (world [A; C; B; address "d" alice false 7] [])).1
       = Resolved (rows l)
     ∧ l ≡ₚ [A; B; address "d" alice false 7]
     ∧ StronglySorted default_first_newest_first l.
Proof.
  apply (list_default_first_newest_first alice
           (world [A; C; B; address "d" alice false 7] [])).
  reflexivity.
Defined.

(** The scenario of the specification: A is the default, B is newer; after
    [setDefault(B)] the list is [B, A]. *)
Example list_after_setDefault :
  ((_ ← setDefaultAddressMutation (Some alice) (CustomerAddress.id B); queryFn (Some alice))
     (world [A; B] [])).1
  = Resolved (rows [UpdateBody.apply (UpdateBody.mk None None None None None (Some true) (Some 50)) B;
                    UpdateBody.apply (body_is_default false) A]).
Proof. by vm_compute. Qed.

(** ** Filters and updates *)

Lemma filter_nil {A} (p : A → bool) l :
  Forall (fun x => p x = false) l → List.filter p l = [].
Proof. induction 1 as [|x l Hx _ IH]; simpl; [done|]. by rewrite Hx. Qed.

Lemma filter_id {A} (p : A → bool) l :
  Forall (fun x => p x = true) l → List.filter p l = l.
Proof. induction 1 as [|x l Hx _ IH]; simpl; [done|]. by rewrite Hx, IH. Qed.

Lemma not_owned_selected u id tbl :
  not_owned u id tbl →
  Forall (fun r => selected [eq_id id; eq_user_id (Auth.id u)] r = false) tbl.
Proof.
  intros H. apply Forall_forall. intros r Hr. specialize (H r Hr).
  unfold selected. simpl. rewrite andb_true_r.
  apply andb_false_iff.
  destruct (decide (uuid_in (CustomerAddress.id r) = uuid_in id)) as [Hi|Hi].
  - right. apply bool_decide_eq_false. tauto.
  - left. by apply bool_decide_eq_false.
Qed.

(** The converse, which decides [not_owned] on a given table. *)
Lemma not_owned_check u id tbl :
  forallb (fun r => negb (selected [eq_id id; eq_user_id (Auth.id u)] r)) tbl = true →
  not_owned u id tbl.
Proof.
  rewrite forallb_forall. intros H r Hr [Hi Hu].
  apply list_elem_of_In in Hr. specialize (H r Hr).
  unfold selected in H. simpl in H. rewrite !bool_decide_true in H; done.
Qed.

Lemma not_owned_updated u id b fs tbl :
  not_owned u id tbl → not_owned u id (updated b fs tbl).
Proof.
  intros H r Hr. unfold updated in Hr.
  apply list_elem_of_fmap in Hr as (r0 & -> & Hr0).
  specialize (H r0 Hr0). by destruct (selected fs r0).
Qed.

Lemma serve_update_single_not_owned ps g u id b tbl :
  is_uuid id = true →
  body_error (UpdateBody.panchayat_id b) (UpdateBody.ward_number b) = None →
  not_owned u id tbl →
  serve ps g (Update b [eq_id id; eq_user_id (Auth.id u)] true) tbl
  = refused PGRST116 tbl.
Proof.
  intros Hid Hb H. unfold serve, type_error. rewrite filters_id_user, Hid, Hb.
  rewrite (filter_nil _ _ (not_owned_selected _ _ _ H)).
  by rewrite andb_false_r.
Qed.

(** ** Updating an address *)

Lemma updateAddressMutation_calls u id input w :
  updateAddressMutation (Some u) id input w
  = (throw_or (rpc (final_update u id input (after_unset_others u id input w))
                   (after_unset_others u id input w)).1
              (data (rpc (final_update u id input (after_unset_others u id input w))
                         (after_unset_others u id input w)).1),
     (rpc (final_update u id input (after_unset_others u id input w))
          (after_unset_others u id input w)).2).
Proof.
  unfold updateAddressMutation, after_unset_others, final_update, when_, new_Date,
    mbind, mret, Remote_bind, Remote_ret.
  destruct (flag (PartialInput.is_default input)).
  - destruct (rpc (unset_other_defaults u id) w) as [resp1 w1]. cbn [snd].
    by destruct (rpc _ w1).
  - by destruct (rpc _ w).
Qed.

(** C7. Let [id] be a uuid and let the panchayat and the ward of the input,
    when it has them, be of the types of their columns (a uuid and a
    four-byte integer).  When no row has the id [id] and belongs to the user
    (the id is unknown, or it is the id of another user's row),
    [updateAddressMutation] rejects: its final call, the update filtered on
    the id and the user, is the last round trip of the invocation, it leaves
    the table exactly as it was before that call, and the mutation throws
    the call's error, which is PGRST116 (no row found for [.single()])
    whenever the store answers the call. *)
Theorem update_not_owned_rejected u id input w :
  is_uuid id = true →
  body_error (PartialInput.panchayat_id input) (PartialInput.ward_number input) = None →
  not_owned u id (db w) →
  ∃ evs e,
    log (updateAddressMutation (Some u) id input w).2 = log w ++ evs ++ [e]
    ∧ request e
      = Update (update_body input (clock w)) [eq_id id; eq_user_id (Auth.id u)] true
    ∧ after e = default (db w) (after <$> last evs)
    ∧ db (updateAddressMutation (Some u) id input w).2 = after e
    ∧ (updateAddressMutation (Some u) id input w).1
      = Rejected (store_error
                    (if fails (List.length evs) w then FetchError else PGRST116)).
Proof.
  intros Hid Hb H. rewrite updateAddressMutation_calls. cbn [fst snd].
  set (w1 := after_unset_others u id input w).
  assert (H1 : not_owned u id (db w1)).
  { unfold w1, after_unset_others. destruct (flag _); [|done].
    rewrite rpc_db. destruct (fails 0 w); [done|].
    rewrite serve_unset_other_defaults, Hid. by apply not_owned_updated. }
  assert (Hc : clock w1 = clock w).
  { unfold w1, after_unset_others. destruct (flag _); [|done]. apply rpc_clock. }
  assert (Hl : ∃ evs, log w1 = log w ++ evs
                      ∧ db w1 = default (db w) (after <$> last evs)
                      ∧ fails 0 w1 = fails (List.length evs) w).
  { unfold w1, after_unset_others. destruct (flag _).
    - eexists [_]. rewrite rpc_log, rpc_fails_next. done.
    - exists []. by rewrite app_nil_r. }
  destruct Hl as (evs & Hl & Hd & Hf).
  exists evs. eexists. rewrite rpc_log, Hl, <- app_assoc.
  split; [done|]. cbn [request after].
  unfold final_update at 1. rewrite Hc. split; [done|].
  rewrite rpc_db, rpc_response, <- Hf.
  unfold final_update.
  rewrite (serve_update_single_not_owned _ _ u id (update_body input (clock w1)) _
             Hid Hb H1).
  by destruct (fails 0 w1).
Qed.

Lemma update_not_owned_rejected_witness :
  (updateAddressMutation (Some alice) (CustomerAddress.id C)
     (PartialInput.mk None (Some (lit "1 Hill Rd")) None None None None)
     (world [A; B; C] [])).1
  = Rejected (store_error PGRST116)
  ∧ db (updateAddressMutation (Some alice) (CustomerAddress.id C)
          (PartialInput.mk None (Some (lit "1 Hill Rd")) None None None None)
          (world [A; B; C] [])).2
    = [A; B; C].
Proof.
  assert (H : not_owned alice (CustomerAddress.id C) (db (world [A; B; C] [])))
    by (apply not_owned_check; vm_compute; reflexivity).
  destruct (update_not_owned_rejected alice (CustomerAddress.id C)
              (PartialInput.mk None (Some (lit "1 Hill Rd")) None None None None)
              (world [A; B; C] []) ltac:(vm_compute; reflexivity) eq_refl H)
    as (evs & e & _ & _ & _ & _ & Hr).
  split; [|by vm_compute].
  rewrite Hr. by vm_compute.
Defined.

(** The call before the final one is not covered by the property above: an
    update of another user's row that asks for the default is rejected, and
    has by then unset the default of the caller's own address A. *)
Example update_not_owned_has_unset_defaults :
  (updateAddressMutation (Some alice) (CustomerAddress.id C)
     (PartialInput.mk None None None None None (Some true)) (world [A; B; C] [])).1
  = Rejected (store_error PGRST116)
  ∧ (CustomerAddress.is_default
       <$> db (updateAddressMutation (Some alice) (CustomerAddress.id C)
                 (PartialInput.mk None None None None None (Some true))
                 (world [A; B; C] [])).2)
    = [false; false; true].
Proof. split; by vm_compute. Qed.

Lemma updated_lookup_unselected b fs tbl (i : nat) r :
  tbl !! i = Some r → selected fs r = false → updated b fs tbl !! i = Some r.
Proof.
  intros Hi Hs. unfold updated. rewrite list_lookup_fmap, Hi. simpl. by rewrite Hs.
Qed.

(** C5. An update that asks for the default issues two calls.  The first
    one unsets [is_default] on the rows selected by [user_id = user.id] and
    [id <> id] (and changes nothing when it fails or when [id] is not a
    uuid): the row being updated is excluded by the filter, so after that
    call it is what it was (as is every row of another user), and it is
    written once, by the final call. *)
Theorem update_clear_excludes_target u id input w :
  flag (PartialInput.is_default input) = true →
  ∃ e1 e2,
    log (updateAddressMutation (Some u) id input w).2 = log w ++ [e1; e2]
    ∧ request e1
      = Update (body_is_default false) [eq_user_id (Auth.id u); neq_id id] false
    ∧ request e2
      = Update (update_body input (clock w)) [eq_id id; eq_user_id (Auth.id u)] true
    ∧ after e1
      = (if fails 0 w || negb (is_uuid id) then db w
         else updated (body_is_default false) [eq_user_id (Auth.id u); neq_id id] (db w))
    ∧ (∀ (i : nat) r, db w !! i = Some r →
         CustomerAddress.id r = id ∨ CustomerAddress.user_id r ≠ Auth.id u →
         after e1 !! i = Some r).
Proof.
  intros Hflag. rewrite updateAddressMutation_calls. cbn [fst snd].
  unfold after_unset_others. rewrite Hflag.
  eexists _, _. rewrite !rpc_log, <- app_assoc. split; [done|].
  cbn [request after]. split; [done|].
  unfold final_update at 1. rewrite rpc_clock. split; [done|].
  rewrite rpc_db, serve_unset_other_defaults.
  split; [by destruct (fails 0 w), (is_uuid id)|].
  intros i r Hi Hr. destruct (fails 0 w), (is_uuid id); try done.
  apply updated_lookup_unselected; [done|].
  unfold selected. simpl. rewrite andb_true_r. apply andb_false_iff.
  destruct Hr as [Hr|Hr].
  - right. apply bool_decide_eq_false. rewrite Hr. tauto.
  - left. by apply bool_decide_eq_false.
Qed.

Lemma update_clear_excludes_target_witness :
  ∃ e1 e2,
    log (updateAddressMutation (Some alice) (CustomerAddress.id A)
           (PartialInput.mk None None None None None (Some true))
           (world [A; B; C] [])).2 = [e1; e2]
    ∧ after e1 !! 0%nat = Some A.
Proof.
  destruct (update_clear_excludes_target alice (CustomerAddress.id A)
              (PartialInput.mk None None None None None (Some true))
              (world [A; B; C] []) eq_refl)
    as (e1 & e2 & Hl & _ & _ & _ & Ht).
  exists e1, e2. split; [exact Hl|].
  apply Ht; [reflexivity | left; reflexivity].
Defined.

(** ** Deleting an address *)

Lemma deleteAddressMutation_calls u id w :
  deleteAddressMutation (Some u) id w
  = (throw_or (rpc (Delete [eq_id id; eq_user_id (Auth.id u)]) w).1 (),
     (rpc (Delete [eq_id id; eq_user_id (Auth.id u)]) w).2).
Proof.
  unfold deleteAddressMutation, mbind, mret, Remote_bind, Remote_ret.
  by destruct (rpc _ w).
Qed.

Lemma not_owned_deleted u id tbl :
  not_owned u id
    (List.filter (fun r => negb (selected [eq_id id; eq_user_id (Auth.id u)] r)) tbl).
Proof.
  intros r Hr [Hi Hu]. apply list_elem_of_In, filter_In in Hr as [_ Hr].
  unfold selected in Hr. simpl in Hr.
  rewrite !bool_decide_true in Hr; done.
Qed.

Lemma delete_not_owned u id tbl :
  not_owned u id tbl →
  List.filter (fun r => negb (selected [eq_id id; eq_user_id (Auth.id u)] r)) tbl = tbl.
Proof.
  intros H. apply filter_id.
  eapply Forall_impl; [by apply not_owned_selected|].
  intros r Hr. cbv beta in Hr. by rewrite Hr.
Qed.

(** C8. Let [id] be a uuid.  When the store answers, deleting an id that no
    row of the user has (never created, already deleted, or another user's)
    resolves and leaves the table as it is; so two deletes of the same id in
    a row both resolve, and the second changes nothing: the user's addresses
    after it are the ones left by the first. *)
Theorem delete_is_idempotent u id w :
  is_uuid id = true → fails 0 w = false → fails 1 w = false →
  (not_owned u id (db w) →
     (deleteAddressMutation (Some u) id w).1 = Resolved ()
     ∧ db (deleteAddressMutation (Some u) id w).2 = db w)
  ∧ (deleteAddressMutation (Some u) id w).1 = Resolved ()
  ∧ (deleteAddressMutation (Some u) id (deleteAddressMutation (Some u) id w).2).1
    = Resolved ()
  ∧ db (deleteAddressMutation (Some u) id (deleteAddressMutation (Some u) id w).2).2
    = db (deleteAddressMutation (Some u) id w).2
  ∧ addresses_of u
      (db (deleteAddressMutation (Some u) id (deleteAddressMutation (Some u) id w).2).2)
    = addresses_of u (db (deleteAddressMutation (Some u) id w).2).
Proof.
  intros Hid H0 H1. rewrite !deleteAddressMutation_calls. cbn [fst snd].
  set (q := Delete [eq_id id; eq_user_id (Auth.id u)]).
  assert (Hserved : ∀ w0, fails 0 w0 = false →
            (rpc q w0).1 = {| data := null; error := None |}
            ∧ db (rpc q w0).2
              = List.filter
                  (fun r => negb (selected [eq_id id; eq_user_id (Auth.id u)] r)) (db w0)).
  { intros w0 Hw0. unfold q.
    by rewrite rpc_response, rpc_db, Hw0, serve_delete, filters_id_user, Hid. }
  destruct (Hserved w H0) as [Hr1 Hd1].
  set (w1 := (rpc q w).2) in *.
  assert (Hf1 : fails 0 w1 = false) by (unfold w1; by rewrite rpc_fails_next).
  destruct (Hserved w1 Hf1) as [Hr2 Hd2].
  assert (Hsame : db (rpc q w1).2 = db w1).
  { rewrite Hd2, Hd1. apply delete_not_owned, not_owned_deleted. }
  rewrite Hr1, Hr2, Hsame. unfold throw_or. cbn [error].
  split; [|done].
  intros H. split; [done|]. rewrite Hd1. by apply delete_not_owned.
Qed.

Lemma delete_is_idempotent_witness :
  (deleteAddressMutation (Some alice) (CustomerAddress.id B) (world [A; B; C] [])).1 = Resolved ()
  ∧ db (deleteAddressMutation (Some alice) (CustomerAddress.id B) (world [A; B; C] [])).2 = [A; C]
  ∧ (deleteAddressMutation (Some alice) (CustomerAddress.id B)
       (deleteAddressMutation (Some alice) (CustomerAddress.id B) (world [A; B; C] [])).2).1
    = Resolved ()
  ∧ db (deleteAddressMutation (Some alice) (CustomerAddress.id B)
          (deleteAddressMutation (Some alice) (CustomerAddress.id B) (world [A; B; C] [])).2).2
    = [A; C].
Proof.
  destruct (delete_is_idempotent alice (CustomerAddress.id B) (world [A; B; C] [])
              ltac:(vm_compute; reflexivity) eq_refl eq_refl)
    as (_ & Hr1 & Hr2 & Hdb & _).
  split; [exact Hr1|]. split; [by vm_compute|]. split; [exact Hr2|].
  rewrite Hdb. by vm_compute.
Defined.

(** ** The two calls of [create] and [setDefault] *)

Lemma setDefaultAddressMutation_calls u id w :
  setDefaultAddressMutation (Some u) id w
  = (throw_or (rpc (set_default u id (clock w)) (rpc (unset_defaults u) w).2).1 (),
     (rpc (set_default u id (clock w)) (rpc (unset_defaults u) w).2).2).
Proof.
  unfold setDefaultAddressMutation, set_default, new_Date, mbind, mret,
    Remote_bind, Remote_ret.
  rewrite <- (rpc_clock (unset_defaults u) w).
  destruct (rpc (unset_defaults u) w) as [resp1 w1]. cbn [snd].
  by destruct (rpc _ w1).
Qed.

(** C9. In a create that asks for the default and in a set-default, the
    answer to the first call (unset the defaults) is dropped.  Both calls
    are always issued, in this order; when the first fails, the table is
    untouched by it and the mutation goes on all the same; and what the
    mutation settles with is read off the answer to the second call alone:
    it throws that call's error if there is one and resolves otherwise. *)
Theorem clear_failure_is_ignored u input id w :
  flag (CreateAddressInput.is_default input) = true →
  (∃ e1 e2,
     log (createAddressMutation (Some u) input w).2 = log w ++ [e1; e2]
     ∧ request e1 = unset_defaults u
     ∧ request e2 = Insert (insert_body u input)
     ∧ (fails 0 w = true → error (response e1) = Some FetchError ∧ after e1 = db w)
     ∧ (createAddressMutation (Some u) input w).1
       = match error (response e2) with
         | Some e => Rejected (store_error e)
         | None => Resolved (data (response e2))
         end)
  ∧ (∃ e1 e2,
       log (setDefaultAddressMutation (Some u) id w).2 = log w ++ [e1; e2]
       ∧ request e1 = unset_defaults u
       ∧ request e2 = set_default u id (clock w)
       ∧ (fails 0 w = true → error (response e1) = Some FetchError ∧ after e1 = db w)
       ∧ (setDefaultAddressMutation (Some u) id w).1
         = match error (response e2) with
           | Some e => Rejected (store_error e)
           | None => Resolved ()
           end).
Proof.
  intros Hflag. split.
  - rewrite createAddressMutation_calls. cbn [fst snd].
    unfold after_unset. rewrite Hflag.
    eexists _, _. rewrite !rpc_log, <- app_assoc. split; [done|].
    cbn [request response after]. repeat split; try done.
    + rewrite rpc_response, H. done.
    + rewrite rpc_db, H. done.
  - rewrite setDefaultAddressMutation_calls. cbn [fst snd].
    eexists _, _. rewrite !rpc_log, <- app_assoc. split; [done|].
    cbn [request response after]. repeat split; try done.
    + rewrite rpc_response, H. done.
    + rewrite rpc_db, H. done.
Qed.

Lemma clear_failure_is_ignored_witness :
  (createAddressMutation (Some alice) (input "12 Palm Rd" None None (Some true) None)
     (world [A] [true])).1
  = Resolved (object (new_row (gen (world [A] [true]))
                        (insert_body alice (input "12 Palm Rd" None None (Some true) None))))
  ∧ (setDefaultAddressMutation (Some alice) (CustomerAddress.id B) (world [A; B] [true])).1
    = Resolved ().
Proof.
  destruct (clear_failure_is_ignored alice
              (input "12 Palm Rd" None None (Some true) None) (CustomerAddress.id B)
              (world [A] [true]) eq_refl) as [(e1 & e2 & Hl & _ & _ & _ & Hr) _].
  destruct (clear_failure_is_ignored alice
              (input "12 Palm Rd" None None (Some true) None) (CustomerAddress.id B)
              (world [A; B] [true]) eq_refl) as [_ (e1' & e2' & Hl' & _ & _ & _ & Hr')].
  split.
  - rewrite Hr. vm_compute in Hl. by injection Hl as _ <-.
  - rewrite Hr'. vm_compute in Hl'. by injection Hl' as _ <-.
Defined.

(** ** The single-default invariant *)

Lemma count_fmap_le {A} (p q : A → bool) (f : A → A) (l : list A) :
  (∀ x, x ∈ l → p (f x) = true → q x = true) →
  (List.length (List.filter p (f <$> l)) ≤ List.length (List.filter q l))%nat.
Proof.
  induction l as [|x l IH]; intros H; simpl; [done|].
  assert (IH' := IH (fun y Hy => H y (list_elem_of_further _ _ _ Hy))).
  pose proof (H x (list_elem_of_here _ _)) as Hx. simpl in IH'.
  destruct (p (f x)) eqn:Hp; simpl; unfold fmap in *.
  - rewrite (Hx eq_refl). simpl. lia.
  - destruct (q x); simpl; lia.
Qed.

Lemma count_le {A} (p q : A → bool) (l : list A) :
  (∀ x, x ∈ l → p x = true → q x = true) →
  (List.length (List.filter p l) ≤ List.length (List.filter q l))%nat.
Proof.
  intros H. rewrite <- (list_fmap_id l) at 1. by apply count_fmap_le.
Qed.

Lemma count_filter_le {A} (p q : A → bool) (l : list A) :
  (List.length (List.filter p (List.filter q l)) ≤ List.length (List.filter p l))%nat.
Proof.
  induction l as [|x l IH]; simpl; [done|].
  destruct (q x); simpl; destruct (p x); simpl; lia.
Qed.

(** Two texts as the store shows them that write the same uuid are the
    same text. *)
Lemma canonical_inj s1 s2 :
  canonical s1 → canonical s2 → uuid_in s1 = uuid_in s2 → s1 = s2.
Proof. unfold canonical. intros H1 H2 H. rewrite H in H1. congruence. Qed.

Lemma canonical_is_uuid s : canonical s → is_uuid s = true.
Proof.
  unfold canonical, is_uuid. intros H. apply bool_decide_eq_true.
  by destruct (uuid_in s).
Qed.

Lemma uuid_canonical g : canonical (uuid g).
Proof. apply (proj2_dsig (gen_random_uuid g)). Qed.

Lemma unique_ids_cons r tbl :
  unique_ids (r :: tbl)
  ↔ (CustomerAddress.id r ∉ (CustomerAddress.id <$> tbl))
    ∧ canonical (CustomerAddress.id r) ∧ unique_ids tbl.
Proof.
  unfold unique_ids. rewrite fmap_cons, NoDup_cons, Forall_cons. tauto.
Qed.

Lemma unique_ids_canonical tbl r :
  unique_ids tbl → r ∈ tbl → canonical (CustomerAddress.id r).
Proof.
  intros [_ Hc] Hr. apply (proj1 (Forall_forall _ _) Hc).
  by apply list_elem_of_fmap_2.
Qed.

Lemma NoDup_ids_inj (l : list CustomerAddress.t) r1 r2 :
  NoDup (CustomerAddress.id <$> l) → r1 ∈ l → r2 ∈ l →
  CustomerAddress.id r1 = CustomerAddress.id r2 → r1 = r2.
Proof.
  intros Hu H1 H2 Hid.
  apply list_elem_of_lookup in H1 as [i Hi]. apply list_elem_of_lookup in H2 as [j Hj].
  assert (i = j); [|congruence].
  apply (NoDup_lookup _ i j (CustomerAddress.id r1) Hu).
  - by rewrite list_lookup_fmap, Hi.
  - by rewrite list_lookup_fmap, Hj, Hid.
Qed.

(** In a table with unique ids, two rows with the same id, as a uuid, are
    the same row. *)
Lemma unique_ids_inj tbl r1 r2 :
  unique_ids tbl → r1 ∈ tbl → r2 ∈ tbl →
  uuid_in (CustomerAddress.id r1) = uuid_in (CustomerAddress.id r2) → r1 = r2.
Proof.
  intros Hu H1 H2 Hid. apply (NoDup_ids_inj tbl); [apply Hu|done|done|].
  apply canonical_inj; [by apply (unique_ids_canonical tbl)..|done].
Qed.

Lemma unique_ids_count id tbl :
  unique_ids tbl →
  (List.length
     (List.filter (fun r => bool_decide (uuid_in (CustomerAddress.id r) = uuid_in id)) tbl)
   ≤ 1)%nat.
Proof.
  induction tbl as [|r tbl IH]; simpl; [lia|].
  intros H. pose proof H as Hall. apply unique_ids_cons in H as (Hr & Hc & H).
  case_bool_decide as Hid; simpl; [|by apply IH].
  rewrite filter_nil; [simpl; lia|].
  apply Forall_forall. intros r' Hr'. apply bool_decide_eq_false. intros Hid'.
  apply Hr. replace r with r'; [by apply list_elem_of_fmap_2|].
  apply (unique_ids_inj (r :: tbl)); [done|by right|by left|congruence].
Qed.

Lemma ids_updated b fs tbl :
  CustomerAddress.id <$> updated b fs tbl = CustomerAddress.id <$> tbl.
Proof.
  unfold updated. rewrite <- list_fmap_compose.
  apply list_fmap_ext. intros i r _. simpl. by destruct (selected fs r).
Qed.

Lemma unique_ids_updated b fs tbl : unique_ids tbl → unique_ids (updated b fs tbl).
Proof. unfold unique_ids. by rewrite ids_updated. Qed.

Lemma unique_ids_filter p tbl : unique_ids tbl → unique_ids (List.filter p tbl).
Proof.
  induction tbl as [|r tbl IH]; simpl; [done|].
  intros H. apply unique_ids_cons in H as (Hr & Hc & H).
  destruct (p r); simpl; [|by apply IH].
  apply unique_ids_cons. split; [|by split; [|apply IH]].
  intros Hin. apply Hr. apply list_elem_of_fmap in Hin as (r' & -> & Hr').
  apply list_elem_of_fmap_2.
  by apply list_elem_of_In, filter_In in Hr' as [Hr' _]; apply list_elem_of_In.
Qed.

Lemma unique_ids_insert g b tbl :
  uuid g ∉ (CustomerAddress.id <$> tbl) → unique_ids tbl → unique_ids (tbl ++ [new_row g b]).
Proof.
  unfold unique_ids. intros Hg [H Hc]. rewrite fmap_app. simpl. split.
  - apply NoDup_app. split; [done|]. split; [|apply NoDup_singleton].
    intros i Hi Hi'. apply list_elem_of_singleton in Hi'. by subst.
  - apply Forall_app. split; [done|]. constructor; [apply uuid_canonical | constructor].
Qed.

(** Unsetting defaults never adds one. *)
Lemma unset_single_default owner fs tbl :
  single_default owner tbl → single_default owner (updated (body_is_default false) fs tbl).
Proof.
  unfold single_default, defaults_of, updated. intros H.
  etrans; [|exact H]. apply count_fmap_le. intros r _.
  destruct (selected fs r); [|done].
  unfold is_default_of. simpl. by rewrite andb_false_r.
Qed.

(** Once all the defaults of a user are unset, the user has none. *)
Lemma unset_defaults_none u tbl r :
  r ∈ updated (body_is_default false) [eq_user_id (Auth.id u)] tbl →
  is_default_of (Auth.id u) r = false.
Proof.
  unfold updated. intros Hr. apply list_elem_of_fmap in Hr as (r0 & -> & _).
  unfold selected, is_default_of. simpl. rewrite andb_true_r.
  destruct (bool_decide (CustomerAddress.user_id r0 = Auth.id u)) eqn:Hsel; simpl.
  - by rewrite andb_false_r.
  - by rewrite Hsel.
Qed.

(** Once the other defaults of a user are unset, only the row [id] can be
    a default of the user. *)
Lemma unset_other_defaults_only u id tbl r :
  r ∈ updated (body_is_default false) [eq_user_id (Auth.id u); neq_id id] tbl →
  is_default_of (Auth.id u) r = true →
  uuid_in (CustomerAddress.id r) = uuid_in id.
Proof.
  unfold updated. intros Hr. apply list_elem_of_fmap in Hr as (r0 & -> & _).
  unfold selected, is_default_of. simpl. rewrite andb_true_r.
  destruct (bool_decide (CustomerAddress.user_id r0 = Auth.id u)) eqn:Hsel; simpl.
  - destruct (bool_decide (uuid_in (CustomerAddress.id r0) ≠ uuid_in id)) eqn:Hne; simpl.
    + by rewrite andb_false_r.
    + intros _. apply bool_decide_eq_false in Hne.
      by destruct (decide (uuid_in (CustomerAddress.id r0) = uuid_in id)).
  - by rewrite Hsel.
Qed.

(** A table whose defaults for the owner all carry the id [id] has at most one. *)
Lemma single_default_by_id owner id tbl :
  unique_ids tbl →
  (∀ r, r ∈ tbl → is_default_of owner r = true →
        uuid_in (CustomerAddress.id r) = uuid_in id) →
  single_default owner tbl.
Proof.
  intros Hu H. unfold single_default, defaults_of.
  etrans; [|exact (unique_ids_count id tbl Hu)].
  apply count_le. intros r Hr Hp. apply bool_decide_eq_true. by apply H.
Qed.

(** Writing to the row selected by [id] and [user_id] (any body). *)
Lemma write_other_owner owner u id b tbl :
  owner ≠ Auth.id u →
  single_default owner tbl →
  single_default owner (updated b [eq_id id; eq_user_id (Auth.id u)] tbl).
Proof.
  unfold single_default, defaults_of, updated. intros Hne H.
  etrans; [|exact H]. apply count_fmap_le. intros r _.
  destruct (selected _ r) eqn:Hs; [|done].
  unfold selected in Hs. simpl in Hs. rewrite andb_true_r in Hs.
  apply andb_true_iff in Hs as [_ Hu]. apply bool_decide_eq_true in Hu.
  unfold is_default_of. simpl. rewrite bool_decide_false; [done|]. congruence.
Qed.

Lemma write_same_owner u id b tbl :
  unique_ids tbl →
  (∀ r, r ∈ tbl → is_default_of (Auth.id u) r = true →
        uuid_in (CustomerAddress.id r) = uuid_in id) →
  single_default (Auth.id u) (updated b [eq_id id; eq_user_id (Auth.id u)] tbl).
Proof.
  intros Hu H. apply (single_default_by_id _ id); [by apply unique_ids_updated|].
  unfold updated. intros r Hr. apply list_elem_of_fmap in Hr as (r0 & -> & Hr0).
  destruct (selected _ r0) eqn:Hs; [|by apply H].
  intros _. unfold selected in Hs. simpl in Hs.
  apply andb_true_iff in Hs as [Hi _]. by apply bool_decide_eq_true in Hi.
Qed.

Lemma write_not_default owner b fs tbl :
  flag (UpdateBody.is_default b) = false →
  single_default owner tbl → single_default owner (updated b fs tbl).
Proof.
  unfold single_default, defaults_of, updated. intros Hb H.
  etrans; [|exact H]. apply count_fmap_le. intros r _.
  destruct (selected fs r); [|done].
  unfold is_default_of. simpl.
  destruct (UpdateBody.is_default b) as [[]|]; simpl in *; try done.
  by rewrite andb_false_r.
Qed.

Lemma single_default_insert owner g u input tbl :
  single_default owner tbl →
  (flag (CreateAddressInput.is_default input) = true →
   ∀ r, r ∈ tbl → is_default_of (Auth.id u) r = false) →
  single_default owner (tbl ++ [new_row g (insert_body u input)]).
Proof.
  unfold single_default, defaults_of. intros H Hnone.
  rewrite List.filter_app, length_app. simpl.
  unfold is_default_of at 2. simpl.
  destruct (flag (CreateAddressInput.is_default input)) eqn:Hflag;
    [|rewrite andb_false_r; simpl; lia].
  case_bool_decide as Hu; simpl; [|lia].
  rewrite filter_nil; [simpl; lia|].
  apply Forall_forall. intros r Hr. rewrite <- Hu. by apply Hnone.
Qed.

(** X1. The invariant of the table is kept by every invocation whose call to
    unset the defaults, if it makes one, does not fail: ids stay unique and
    an owner with at most one default address still has at most one. *)
Theorem single_default_preserved u m w owner :
  unique_ids (db w) → single_default owner (db w) →
  (unsets_first m = true → fails 0 w = false) →
  unique_ids (db (invoke (Some u) m w).2)
  ∧ single_default owner (db (invoke (Some u) m w).2).
Proof.
  intros Hu Hs Hnet. destruct m as [input|id input|id|id]; cbn [invoke snd unsets_first] in *.
  - (* create *)
    rewrite createAddressMutation_calls. cbn [snd].
    set (w1 := after_unset u input w).
    assert (H1 : unique_ids (db w1) ∧ single_default owner (db w1)
                 ∧ (flag (CreateAddressInput.is_default input) = true →
                    ∀ r, r ∈ db w1 → is_default_of (Auth.id u) r = false)).
    { unfold w1, after_unset.
      destruct (flag (CreateAddressInput.is_default input)); [|done].
      rewrite rpc_db, (Hnet eq_refl), serve_unset_defaults.
      cbn [snd]. split; [by apply unique_ids_updated|].
      split; [by apply unset_single_default|].
      intros _ r. apply unset_defaults_none. }
    destruct H1 as (Hu1 & Hs1 & Hnone).
    rewrite rpc_db. destruct (fails 0 w1); [done|].
    destruct (serve_insert (panchayats w1) (gen w1) (insert_body u input) (db w1))
      as [[e ->]|[Hfresh ->]]; [done|]. cbn [snd].
    split; [by apply unique_ids_insert | by apply single_default_insert].
  - (* update *)
    rewrite updateAddressMutation_calls. cbn [snd].
    set (w1 := after_unset_others u id input w).
    assert (H1 : unique_ids (db w1) ∧ single_default owner (db w1)
                 ∧ (flag (PartialInput.is_default input) = true → is_uuid id = true →
                    ∀ r, r ∈ db w1 → is_default_of (Auth.id u) r = true →
                         uuid_in (CustomerAddress.id r) = uuid_in id)).
    { unfold w1, after_unset_others.
      destruct (flag (PartialInput.is_default input)); [|done].
      rewrite rpc_db, (Hnet eq_refl), serve_unset_other_defaults.
      destruct (is_uuid id); [|done].
      cbn [snd]. split; [by apply unique_ids_updated|].
      split; [by apply unset_single_default|].
      intros _ _ r. apply unset_other_defaults_only. }
    destruct H1 as (Hu1 & Hs1 & Honly).
    rewrite rpc_db. destruct (fails 0 w1); [done|].
    unfold final_update.
    destruct (serve_update_single (panchayats w1) (gen w1) (update_body input (clock w1))
                [eq_id id; eq_user_id (Auth.id u)] (db w1))
      as [[e ->]|(r & _ & Hfs & ->)]; [done|]. cbn [snd].
    rewrite filters_id_user in Hfs.
    split; [by apply unique_ids_updated|].
    destruct (flag (PartialInput.is_default input)) eqn:Hflag.
    + destruct (decide (owner = Auth.id u)) as [->|Hne].
      * apply write_same_owner; [done|]. apply Honly; [done|].
        by destruct (is_uuid id).
      * by apply write_other_owner.
    + by apply write_not_default.
  - (* delete *)
    rewrite deleteAddressMutation_calls. cbn [snd].
    rewrite rpc_db. destruct (fails 0 w); [done|]. rewrite serve_delete.
    destruct (head _); [done|]. cbn [snd].
    split; [by apply unique_ids_filter|].
    unfold single_default, defaults_of in *. etrans; [apply count_filter_le | done].
  - (* setDefault *)
    rewrite setDefaultAddressMutation_calls. cbn [snd].
    set (w1 := (rpc (unset_defaults u) w).2).
    assert (H1 : unique_ids (db w1) ∧ single_default owner (db w1)
                 ∧ ∀ r, r ∈ db w1 → is_default_of (Auth.id u) r = false).
    { unfold w1. rewrite rpc_db, (Hnet eq_refl), serve_unset_defaults.
      cbn [snd]. split; [by apply unique_ids_updated|].
      split; [by apply unset_single_default|].
      intros r. apply unset_defaults_none. }
    destruct H1 as (Hu1 & Hs1 & Hnone).
    rewrite rpc_db. destruct (fails 0 w1); [done|].
    rewrite serve_set_default. destruct (is_uuid id); [|done]. cbn [snd].
    split; [by apply unique_ids_updated|].
    destruct (decide (owner = Auth.id u)) as [->|Hne].
    + apply write_same_owner; [done|]. intros r Hr Hd. by rewrite (Hnone r Hr) in Hd.
    + by apply write_other_owner.
Qed.

(** ** Setting the default *)

(** When both calls of [setDefaultAddressMutation] go through and [id] is a
    uuid, the user's row [id] is the default with a fresh [updated_at], and
    no other row of the user is a default. *)
Lemma setDefault_when_both_calls_succeed u id w r :
  is_uuid id = true → fails 0 w = false → fails 1 w = false →
  r ∈ db (setDefaultAddressMutation (Some u) id w).2 →
  CustomerAddress.user_id r = Auth.id u →
  (uuid_in (CustomerAddress.id r) = uuid_in id →
     CustomerAddress.is_default r = true ∧ CustomerAddress.updated_at r = clock w)
  ∧ (uuid_in (CustomerAddress.id r) ≠ uuid_in id → CustomerAddress.is_default r = false).
Proof.
  intros Hid H0 H1. rewrite setDefaultAddressMutation_calls. cbn [snd].
  rewrite rpc_db, rpc_fails_next, H1, rpc_db, H0.
  rewrite serve_set_default, Hid, serve_unset_defaults. cbn [snd].
  unfold updated. rewrite <- list_fmap_compose.
  intros Hr. apply list_elem_of_fmap in Hr as (r0 & -> & _).
  unfold selected. cbn [forallb holds compose].
  rewrite !andb_true_r.
  destruct (bool_decide (CustomerAddress.user_id r0 = Auth.id u)) eqn:Hu; simpl.
  - rewrite Hu, andb_true_r.
    destruct (bool_decide (uuid_in (CustomerAddress.id r0) = uuid_in id)) eqn:Hi;
      simpl; intros _.
    + apply bool_decide_eq_true in Hi. by split.
    + apply bool_decide_eq_false in Hi. by split.
  - intros Hu'. apply bool_decide_eq_false in Hu.
    destruct (bool_decide (uuid_in (CustomerAddress.id r0) = uuid_in id) && _) eqn:Hsel;
      simpl in *; done.
Qed.

(** C1, at the failing input.  The history above runs from the empty table;
    its last invocation, [setDefault], resolves although its first call
    failed, and it leaves the user with two default addresses.  The same
    happens to a create and to an update that ask for the default while the
    first call fails. *)
Lemma single_default_broken_by_failed_unset :
  (history_failed_unset world0).1 = true
  ∧ (CustomerAddress.id <$> defaults_of (Auth.id alice) (db (history_failed_unset world0).2))
    = [CustomerAddress.id A; CustomerAddress.id B]
  ∧ ¬ single_default (Auth.id alice) (db (history_failed_unset world0).2)
  ∧ (invoke (Some alice) (create (input "7 Lake Rd" None None (Some true) None))
       (world [A] [true])).1 = true
  ∧ ¬ single_default (Auth.id alice)
        (db (invoke (Some alice) (create (input "7 Lake Rd" None None (Some true) None))
               (world [A] [true])).2)
  ∧ (invoke (Some alice) (update (CustomerAddress.id B) (PartialInput.mk None None None None None (Some true)))
       (world [A; B] [true])).1 = true
  ∧ ¬ single_default (Auth.id alice)
        (db (invoke (Some alice)
               (update (CustomerAddress.id B) (PartialInput.mk None None None None None (Some true)))
               (world [A; B] [true])).2).
Proof.
  repeat split; try (by vm_compute); unfold single_default; vm_compute; lia.
Qed.

(** C4, at the failing input.  A is the user's default and B another of
    the user's addresses; [setDefault(B)] whose first call fails resolves,
    B is the default with the fresh [updated_at], the two calls were issued
    in order, and A is still a default. *)
Lemma setDefault_failed_unset_keeps_old_default :
  (setDefaultAddressMutation (Some alice) (CustomerAddress.id B) (world [A; B] [true])).1 = Resolved ()
  ∧ (request <$> log (setDefaultAddressMutation (Some alice) (CustomerAddress.id B) (world [A; B] [true])).2)
    = [unset_defaults alice; set_default alice (CustomerAddress.id B) 50]
  ∧ ((fun r => (CustomerAddress.id r, CustomerAddress.is_default r, CustomerAddress.updated_at r))
       <$> db (setDefaultAddressMutation (Some alice) (CustomerAddress.id B) (world [A; B] [true])).2)
    = [(CustomerAddress.id A, true, 1); (CustomerAddress.id B, true, 50)].
Proof. repeat split; by vm_compute. Qed.

(** * Further properties of the hook *)

(** Closed decidable facts about the scenarios. *)
Ltac by_compute :=
  unfold reliable;
  first [ apply (bool_decide_unpack _); vm_compute; exact I
        | by intros [|[|[|[|n]]]] ].

(** ** What every call keeps *)

Lemma serve_unique_ids ps g q tbl : unique_ids tbl → unique_ids (serve ps g q tbl).2.
Proof.
  intros H. destruct (serve_db ps g q tbl) as [->|Hq]; [done|].
  destruct q as [fs os|b|b fs single|fs].
  - done.
  - destruct Hq as [Hfresh ->]. by apply unique_ids_insert.
  - destruct Hq as [_ ->]. by apply unique_ids_updated.
  - rewrite Hq. by apply unique_ids_filter.
Qed.

Lemma rpc_unique_ids q w : unique_ids (db w) → unique_ids (db (rpc q w).2).
Proof.
  intros H. rewrite rpc_db. destruct (fails 0 w); [done|]. by apply serve_unique_ids.
Qed.

Lemma rpc_error_unchanged q w e :
  error (rpc q w).1 = Some e → db (rpc q w).2 = db w.
Proof.
  rewrite rpc_response, rpc_db. destruct (fails 0 w); [done|].
  apply serve_error_unchanged.
Qed.

Lemma invoke_unauthenticated m w : invoke None m w = (false, w).
Proof. by destruct m. Qed.

(** The world a mutation leaves, call by call. *)
Lemma invoke_db u m w :
  db (invoke (Some u) m w).2
  = match m with
    | create input =>
        db (rpc (Insert (insert_body u input)) (after_unset u input w)).2
    | update id input =>
        db (rpc (final_update u id input (after_unset_others u id input w))
                (after_unset_others u id input w)).2
    | delete id => db (rpc (Delete [eq_id id; eq_user_id (Auth.id u)]) w).2
    | setDefault id =>
        db (rpc (set_default u id (clock w)) (rpc (unset_defaults u) w).2).2
    end.
Proof.
  destruct m; cbn [invoke snd].
  - by rewrite createAddressMutation_calls.
  - by rewrite updateAddressMutation_calls.
  - by rewrite deleteAddressMutation_calls.
  - by rewrite setDefaultAddressMutation_calls.
Qed.

(** X2. The primary key stays a key: whoever calls, whatever the mutation and
    whichever of its calls fail, a table with unique ids is left with unique
    ids. *)
Theorem unique_ids_invoke user m w :
  unique_ids (db w) → unique_ids (db (invoke user m w).2).
Proof.
  intros H. destruct user as [u|]; [|by rewrite invoke_unauthenticated].
  rewrite invoke_db. destruct m.
  - apply rpc_unique_ids. unfold after_unset. destruct (flag _); [|done].
    by apply rpc_unique_ids.
  - apply rpc_unique_ids. unfold after_unset_others. destruct (flag _); [|done].
    by apply rpc_unique_ids.
  - by apply rpc_unique_ids.
  - by do 2 apply rpc_unique_ids.
Qed.

Lemma unique_ids_invoke_witness :
  unique_ids (db (invoke (Some alice) (setDefault (CustomerAddress.id B)) (world [A; B; C] [true])).2).
Proof.
  apply unique_ids_invoke. by_compute.
Defined.

(** ** A mutation, call by call *)

Lemma world_after_unset_clock u m w : clock (world_after_unset u m w) = clock w.
Proof.
  unfold world_after_unset. destruct (unset_request u m); [apply rpc_clock | done].
Qed.

Lemma invoke_calls u m w :
  invoke (Some u) m w
  = (match error (rpc (final_request u m w) (world_after_unset u m w)).1 with
     | Some _ => false
     | None => true
     end,
     (rpc (final_request u m w) (world_after_unset u m w)).2).
Proof.
  destruct m as [input|id input|id|id];
    unfold invoke, world_after_unset, unset_request, final_request.
  - rewrite createAddressMutation_calls. cbn [fst snd]. unfold after_unset, throw_or.
    destruct (flag _); by destruct (error _).
  - rewrite updateAddressMutation_calls. cbn [fst snd].
    unfold after_unset_others, final_update, throw_or.
    destruct (flag _); rewrite ?rpc_clock; by destruct (error _).
  - rewrite deleteAddressMutation_calls. cbn [fst snd]. unfold throw_or.
    by destruct (error _).
  - rewrite setDefaultAddressMutation_calls. cbn [fst snd]. unfold throw_or.
    by destruct (error _).
Qed.

(** X5. The trace of a mutation is fixed by its input: for a signed-in
    user the round trips added to the log are the call that unsets defaults
    (when the mutation has one) followed by the final call, in this order
    and whichever of them fails: a mutation never stops after a failed
    first call and never repeats a call. *)
Theorem invoke_trace u m w :
  request <$> log (invoke (Some u) m w).2
  = (request <$> log w)
      ++ match unset_request u m with Some q => [q] | None => [] end
      ++ [final_request u m w].
Proof.
  rewrite invoke_calls. cbn [snd]. rewrite rpc_log, fmap_app. cbn [fmap list_fmap request].
  unfold world_after_unset. destruct (unset_request u m) as [q|]; [|done].
  rewrite rpc_log, fmap_app, <- app_assoc. done.
Qed.

(** X6. Without a signed-in user nothing reaches the store, and only then:
    a mutation leaves the log of round trips as it was exactly when no user
    is signed in; it is then rejected and the world is untouched. *)
Theorem invoke_no_call_iff_no_user user m w :
  (log (invoke user m w).2 = log w ↔ user = None)
  ∧ invoke None m w = (false, w).
Proof.
  split; [|apply invoke_unauthenticated].
  destruct user as [u|]; [|by rewrite invoke_unauthenticated].
  split; [|done]. intros H. apply (f_equal List.length) in H.
  rewrite invoke_calls in H. cbn [snd] in H.
  rewrite rpc_log, length_app in H. simpl in H.
  assert (List.length (log w) ≤ List.length (log (world_after_unset u m w)))%nat; [|lia].
  unfold world_after_unset. destruct (unset_request u m); [|done].
  rewrite rpc_log, length_app. lia.
Qed.

(** X7. A rejected mutation has changed nothing beyond what its call to
    unset the defaults did: the table it leaves is the table as it was
    after that call, and the table as it was before the mutation when the
    mutation has no such call. *)
Theorem invoke_rejected_db u m w :
  (invoke (Some u) m w).1 = false →
  db (invoke (Some u) m w).2 = db (world_after_unset u m w)
  ∧ (unsets_first m = false → db (invoke (Some u) m w).2 = db w).
Proof.
  rewrite invoke_calls. cbn [fst snd]. intros H.
  destruct (error _) as [e|] eqn:He; [|done].
  rewrite (rpc_error_unchanged _ _ _ He). split; [done|].
  unfold world_after_unset, unset_request.
  destruct m; simpl; try done; by intros ->.
Qed.

Lemma invoke_rejected_db_witness :
  db (invoke (Some alice)
        (update (CustomerAddress.id C) (PartialInput.mk None (Some (lit "1 Hill Rd")) None None None None))
        (world [A; B; C] [])).2
  = [A; B; C].
Proof.
  by apply (invoke_rejected_db alice
              (update (CustomerAddress.id C) (PartialInput.mk None (Some (lit "1 Hill Rd")) None None None None))
              (world [A; B; C] []) eq_refl).
Defined.

(** ** Rows of other users *)

Lemma owned_by_apply u b r : owned_by u (UpdateBody.apply b r) = owned_by u r.
Proof. done. Qed.

Lemma scoped_selected u fs r :
  eq_user_id (Auth.id u) ∈ fs → selected fs r = true → owned_by u r = true.
Proof.
  intros Hin Hs. unfold selected in Hs.
  rewrite forallb_forall in Hs. apply (Hs (eq_user_id (Auth.id u))).
  by apply list_elem_of_In.
Qed.

Lemma others_updated u b fs tbl :
  eq_user_id (Auth.id u) ∈ fs → others u (updated b fs tbl) = others u tbl.
Proof.
  intros Hin. unfold others, updated. induction tbl as [|r tbl IH]; [done|].
  rewrite fmap_cons. cbn [List.filter]. cbv beta.
  destruct (selected fs r) eqn:Hs.
  - rewrite owned_by_apply, (scoped_selected _ _ _ Hin Hs). cbn [negb]. apply IH.
  - destruct (negb (owned_by u r)); [f_equal|]; apply IH.
Qed.

Lemma others_deleted u fs tbl :
  eq_user_id (Auth.id u) ∈ fs →
  others u (List.filter (fun r => negb (selected fs r)) tbl) = others u tbl.
Proof.
  intros Hin. unfold others. induction tbl as [|r tbl IH]; [done|]. simpl.
  destruct (selected fs r) eqn:Hs; simpl.
  - by rewrite (scoped_selected _ _ _ Hin Hs).
  - destruct (negb (owned_by u r)); [f_equal|]; apply IH.
Qed.

Lemma serve_others u ps g q tbl :
  scoped u q → others u (serve ps g q tbl).2 = others u tbl.
Proof.
  intros Hq. destruct (serve_db ps g q tbl) as [->|H]; [done|].
  destruct q as [fs os|b|b fs single|fs].
  - done.
  - destruct H as [_ ->].
    unfold others. rewrite List.filter_app. simpl in *.
    unfold owned_by at 2. simpl. rewrite bool_decide_true by done. simpl.
    by rewrite app_nil_r.
  - destruct H as [_ ->]. by apply others_updated.
  - rewrite H. by apply others_deleted.
Qed.

Lemma rpc_others u q w : scoped u q → others u (db (rpc q w).2) = others u (db w).
Proof.
  intros Hq. rewrite rpc_db. destruct (fails 0 w); [done|]. by apply serve_others.
Qed.

Lemma final_request_scoped u m w : scoped u (final_request u m w).
Proof. destruct m; simpl; set_solver. Qed.

Lemma unset_request_scoped u m q : unset_request u m = Some q → scoped u q.
Proof.
  destruct m; simpl; try destruct (flag _); intros [= <-]; simpl; set_solver.
Qed.

(** X3. A user's mutations never touch another user's rows: whatever the
    mutation and whichever calls fail, the rows that do not belong to the
    caller are afterwards the same rows, in the same order. *)
Theorem invoke_others_untouched u m w :
  others u (db (invoke (Some u) m w).2) = others u (db w).
Proof.
  rewrite invoke_calls. cbn [snd].
  rewrite rpc_others by apply final_request_scoped.
  unfold world_after_unset. destruct (unset_request u m) as [q|] eqn:Hq; [|done].
  apply rpc_others. by apply (unset_request_scoped u m).
Qed.

(** ** The columns that are never written *)

Lemma identity_updated b fs tbl : identity <$> updated b fs tbl = identity <$> tbl.
Proof.
  unfold updated. rewrite <- list_fmap_compose.
  apply list_fmap_ext. intros i r _. simpl. by destruct (selected fs r).
Qed.

Lemma filter_sublist {A} (p : A → bool) (l : list A) : List.filter p l `sublist_of` l.
Proof.
  induction l as [|x l IH]; simpl; [constructor|].
  destruct (p x); by constructor.
Qed.

Lemma rpc_update_identity b fs single w :
  identity <$> db (rpc (Update b fs single) w).2 = identity <$> db w.
Proof.
  rewrite rpc_db. destruct (fails 0 w); [done|].
  destruct (serve_db (panchayats w) (gen w) (Update b fs single) (db w)) as [->|[_ ->]];
    [done|]. apply identity_updated.
Qed.

(** X4. No mutation rewrites the identity of a row.  Whichever calls fail,
    an update and a set-default leave the ids, owners and creation times of
    the table exactly as they were, row by row; a create leaves them as they
    were and appends at most one row, with the generated id, the caller as
    owner and the server's time; a delete only drops rows, the rows it
    leaves are rows of the table, unchanged and in their order. *)
Theorem invoke_identity u m w :
  match m with
  | create _ =>
      identity <$> db (invoke (Some u) m w).2 = identity <$> db w
      ∨ identity <$> db (invoke (Some u) m w).2
        = (identity <$> db w) ++ [(uuid (gen w), Auth.id u, now (gen w))]
  | delete _ => db (invoke (Some u) m w).2 `sublist_of` db w
  | update _ _ | setDefault _ =>
      identity <$> db (invoke (Some u) m w).2 = identity <$> db w
  end.
Proof.
  rewrite invoke_db. destruct m as [input|id input|id|id].
  - assert (H1 : identity <$> db (after_unset u input w) = identity <$> db w).
    { unfold after_unset. destruct (flag _); [|done]. apply rpc_update_identity. }
    rewrite rpc_db, after_unset_gen. destruct (fails 0 _); [by left|].
    destruct (serve_insert (panchayats (after_unset u input w)) (gen w)
                (insert_body u input) (db (after_unset u input w)))
      as [[e ->]|[_ ->]]; [by left|].
    right. cbn [snd]. by rewrite fmap_app, H1.
  - unfold final_update. rewrite rpc_update_identity.
    unfold after_unset_others. destruct (flag _); [|done]. apply rpc_update_identity.
  - rewrite rpc_db. destruct (fails 0 w); [done|]. rewrite serve_delete.
    destruct (head _); [done|]. apply filter_sublist.
  - unfold set_default, unset_defaults. by rewrite !rpc_update_identity.
Qed.

(** ** The invariant, at a concrete table *)

Lemma single_default_preserved_witness :
  unique_ids (db (invoke (Some alice) (setDefault (CustomerAddress.id B)) (world [A; B; C] [])).2)
  ∧ single_default (Auth.id alice)
      (db (invoke (Some alice) (setDefault (CustomerAddress.id B)) (world [A; B; C] [])).2).
Proof.
  apply (single_default_preserved alice (setDefault (CustomerAddress.id B)) (world [A; B; C] [])
           (Auth.id alice)).
  - by_compute.
  - unfold single_default. vm_compute. lia.
  - reflexivity.
Defined.

(** ** What a resolved create has stored *)

Lemma after_unset_ids u input w :
  CustomerAddress.id <$> db (after_unset u input w) = CustomerAddress.id <$> db w.
Proof.
  unfold after_unset. destruct (flag _); [|done].
  rewrite rpc_db. destruct (fails 0 w); [done|].
  rewrite serve_unset_defaults. apply ids_updated.
Qed.

(** X9. A create that resolves has appended exactly one row, the row it
    resolves with.  Its id is the generated one, which no row had; the
    caller owns it; the full address is stored as given, blank or not; the
    flag is the input's ([false] when absent); both timestamps are the
    server's time; a label, a landmark and a ward number that are not falsy
    are stored as given, and an absent label is stored as 'Home'. *)
Theorem create_resolved_row u input w d w' :
  createAddressMutation (Some u) input w = (Resolved d, w') →
  ∃ r, d = object r
    ∧ db w' = db (after_unset u input w) ++ [r]
    ∧ List.length (db w') = S (List.length (db w))
    ∧ CustomerAddress.id r = uuid (gen w)
    ∧ (CustomerAddress.id r ∉ (CustomerAddress.id <$> db w))
    ∧ CustomerAddress.user_id r = Auth.id u
    ∧ CustomerAddress.full_address r = CreateAddressInput.full_address input
    ∧ CustomerAddress.is_default r = flag (CreateAddressInput.is_default input)
    ∧ CustomerAddress.created_at r = now (gen w)
    ∧ CustomerAddress.updated_at r = now (gen w)
    ∧ (CreateAddressInput.address_label input = None →
       CustomerAddress.address_label r = lit "Home")
    ∧ (∀ s, s ≠ [] → CreateAddressInput.address_label input = Some s →
       CustomerAddress.address_label r = s)
    ∧ (∀ s, s ≠ [] → CreateAddressInput.landmark input = Some s →
       CustomerAddress.landmark r = Some s)
    ∧ (∀ n, n ≠ 0 → CreateAddressInput.ward_number input = Some n →
       CustomerAddress.ward_number r = Some n).
Proof.
  rewrite createAddressMutation_calls. intros [= Hres <-].
  rewrite rpc_response in Hres. rewrite rpc_db, after_unset_gen in *.
  destruct (fails 0 (after_unset u input w)); [done|].
  destruct (serve_insert (panchayats (after_unset u input w)) (gen w)
              (insert_body u input) (db (after_unset u input w)))
    as [[e He]|[Hfresh He]]; rewrite He in *; [done|].
  cbn [fst snd data error throw_or] in *.
  injection Hres as <-. rewrite after_unset_ids in Hfresh.
  eexists. split; [done|]. split; [done|]. split.
  { rewrite length_app. simpl.
    rewrite <- (length_fmap CustomerAddress.id (db (after_unset _ _ _))), after_unset_ids,
      length_fmap. lia. }
  unfold new_row, insert_body. simpl. repeat split; try done.
  - by intros ->.
  - intros s Hs ->. unfold str_or. simpl. by destruct s.
  - intros s Hs ->. simpl. by destruct s.
  - intros n Hn ->. simpl. by rewrite bool_decide_false.
Qed.

Lemma create_resolved_row_witness :
  ∃ r, db (createAddressMutation (Some alice)
             (input "7 Lake Rd" (Some "by the lake"%string) (Some 4) (Some true)
                (Some "Work"%string))
             (world [A; C] [])).2
       = [UpdateBody.apply (body_is_default false) A; C; r]
     ∧ CustomerAddress.address_label r = lit "Work"
     ∧ CustomerAddress.landmark r = Some (lit "by the lake")
     ∧ CustomerAddress.ward_number r = Some 4.
Proof.
  destruct (create_resolved_row alice
              (input "7 Lake Rd" (Some "by the lake"%string) (Some 4) (Some true)
                 (Some "Work"%string))
              (world [A; C] []) _ _ ltac:(vm_compute; reflexivity))
    as (r & _ & Hdb & _ & _ & _ & _ & _ & _ & _ & _ & _ & Hl & Hm & Hn).
  exists r. split; [exact Hdb|]. split; [|split].
  - by apply (Hl (lit "Work")).
  - by apply (Hm (lit "by the lake")).
  - by apply (Hn 4).
Defined.

(** ** What a resolved update has stored *)

Lemma filter_singleton {A} (p : A → bool) (l : list A) (x : A) :
  List.filter p l = [x] → x ∈ l ∧ p x = true.
Proof.
  intros H. assert (Hin : In x (List.filter p l)) by (rewrite H; by left).
  apply filter_In in Hin as [Hin Hp]. split; [by apply list_elem_of_In | done].
Qed.

(** The row being updated is the same row before and after the call that
    unsets the other defaults. *)
Lemma after_unset_others_target u id input w r :
  r ∈ db (after_unset_others u id input w) →
  uuid_in (CustomerAddress.id r) = uuid_in id → r ∈ db w.
Proof.
  unfold after_unset_others. destruct (flag _); [|done].
  rewrite rpc_db. destruct (fails 0 w); [done|].
  rewrite serve_unset_other_defaults. destruct (is_uuid id); [|done].
  cbn [snd]. unfold updated.
  intros Hr Hid. apply list_elem_of_fmap in Hr as (r0 & -> & Hr0).
  destruct (selected _ r0) eqn:Hs; [|done].
  unfold selected in Hs. simpl in Hs, Hid.
  apply andb_true_iff in Hs as [_ Hs]. apply andb_true_iff in Hs as [Hs _].
  by apply bool_decide_eq_true in Hs.
Qed.

(** An update that resolves has found exactly one row with this id, as a
    uuid, owned by the caller, and resolves with that row patched, which is
    in the table afterwards. *)
Lemma updateAddressMutation_resolved u id input w d w' :
  updateAddressMutation (Some u) id input w = (Resolved d, w') →
  ∃ r0, r0 ∈ db w
    ∧ is_uuid id = true
    ∧ uuid_in (CustomerAddress.id r0) = uuid_in id
    ∧ CustomerAddress.user_id r0 = Auth.id u
    ∧ d = object (UpdateBody.apply (update_body input (clock w)) r0)
    ∧ UpdateBody.apply (update_body input (clock w)) r0 ∈ db w'.
Proof.
  rewrite updateAddressMutation_calls. intros [= Hres <-].
  set (w1 := after_unset_others u id input w) in *.
  assert (Hc : clock w1 = clock w).
  { unfold w1, after_unset_others. destruct (flag _); [apply rpc_clock | done]. }
  rewrite rpc_response in Hres. rewrite rpc_db.
  destruct (fails 0 w1); [done|].
  unfold final_update in *. rewrite Hc in *.
  destruct (serve_update_single (panchayats w1) (gen w1) (update_body input (clock w))
              [eq_id id; eq_user_id (Auth.id u)] (db w1))
    as [[e He]|(r0 & Hhit & Hfs & He)]; rewrite He in *; [done|].
  cbn [fst snd data error throw_or] in *. injection Hres as <-.
  rewrite filters_id_user in Hfs.
  apply filter_singleton in Hhit as [Hin Hs].
  pose proof Hs as Hsel. unfold selected in Hs. simpl in Hs.
  apply andb_true_iff in Hs as [Hi Hs]. apply andb_true_iff in Hs as [Hu _].
  apply bool_decide_eq_true in Hi, Hu.
  exists r0.
  split; [by apply (after_unset_others_target u id input w)|].
  split; [by destruct (is_uuid id)|].
  split; [done|]. split; [done|]. split; [done|].
  apply list_elem_of_fmap. exists r0. split; [|done]. by rewrite Hsel.
Qed.

(** X10. An update that resolves has found exactly one row with this id
    (the id is a uuid, and the row's id is the same uuid) owned by the
    caller, and resolves with that row patched, which is in the table
    afterwards.  Identity is kept, [updated_at] is the client's time, and
    each other column is the input's value when the input has one, taken as
    it is (an empty label or landmark and a ward number 0 are stored, not
    replaced as in a create; a panchayat id reads back in the text form the
    store shows), and the row's own value when it has none. *)
Theorem update_resolved_row u id input w d w' :
  updateAddressMutation (Some u) id input w = (Resolved d, w') →
  ∃ r0 r, r0 ∈ db w
    ∧ is_uuid id = true
    ∧ uuid_in (CustomerAddress.id r0) = uuid_in id
    ∧ CustomerAddress.user_id r0 = Auth.id u
    ∧ d = object r ∧ r ∈ db w'
    ∧ identity r = identity r0
    ∧ CustomerAddress.updated_at r = clock w
    ∧ CustomerAddress.address_label r
      = default (CustomerAddress.address_label r0) (PartialInput.address_label input)
    ∧ CustomerAddress.full_address r
      = default (CustomerAddress.full_address r0) (PartialInput.full_address input)
    ∧ CustomerAddress.landmark r
      = from_option Some (CustomerAddress.landmark r0) (PartialInput.landmark input)
    ∧ CustomerAddress.panchayat_id r
      = from_option (fun s => Some (uuid_text s)) (CustomerAddress.panchayat_id r0)
          (PartialInput.panchayat_id input)
    ∧ CustomerAddress.ward_number r
      = from_option Some (CustomerAddress.ward_number r0) (PartialInput.ward_number input)
    ∧ CustomerAddress.is_default r
      = default (CustomerAddress.is_default r0) (PartialInput.is_default input).
Proof.
  intros H. apply updateAddressMutation_resolved in H
    as (r0 & Hr0 & Hid & Hsame & Hown & -> & Hin).
  exists r0, (UpdateBody.apply (update_body input (clock w)) r0).
  repeat (split; [done|]).
  unfold UpdateBody.apply, update_body, identity. simpl.
  repeat split; by destruct (_ input).
Qed.

Lemma update_resolved_row_witness :
  ∃ r, (updateAddressMutation (Some alice) (CustomerAddress.id B)
          (PartialInput.mk (Some []) None (Some []) None (Some 0) None)
          (world [A; B; C] [])).1 = Resolved (object r)
     ∧ CustomerAddress.address_label r = []
     ∧ CustomerAddress.full_address r = lit "12 Palm Rd"
     ∧ CustomerAddress.landmark r = Some []
     ∧ CustomerAddress.ward_number r = Some 0.
Proof.
  destruct (update_resolved_row alice (CustomerAddress.id B)
              (PartialInput.mk (Some []) None (Some []) None (Some 0) None)
              (world [A; B; C] []) _ _ ltac:(vm_compute; reflexivity))
    as (r0 & r & Hr0 & _ & Hid & _ & [= <-] & _ & _ & _ & Hl & Hf & Hm & _ & Hn & _).
  eexists. split; [vm_compute; reflexivity|]. by vm_compute.
Defined.

(** ** Set-default on an id the user does not own *)

Lemma updated_none b fs tbl :
  Forall (fun r => selected fs r = false) tbl → updated b fs tbl = tbl.
Proof.
  unfold updated. induction 1 as [|r tbl Hr _ IH]; [done|].
  rewrite fmap_cons, IH. cbv beta. by rewrite Hr.
Qed.

Lemma defaults_unset u tbl :
  defaults_of (Auth.id u) (updated (body_is_default false) [eq_user_id (Auth.id u)] tbl) = [].
Proof.
  unfold defaults_of. apply filter_nil, Forall_forall. intros r Hr.
  by apply (unset_defaults_none u tbl).
Qed.

Lemma unset_defaults_served u w :
  fails 0 w = false →
  db (rpc (unset_defaults u) w).2
  = updated (body_is_default false) [eq_user_id (Auth.id u)] (db w)
  ∧ fails 0 (rpc (unset_defaults u) w).2 = fails 1 w.
Proof.
  intros H0. by rewrite rpc_db, rpc_fails_next, H0, serve_unset_defaults.
Qed.

(** X12. Set-default does not check that the id exists.  When the id is a
    uuid, no row has this id and belongs to the caller and both calls go
    through, the mutation resolves as if it had worked, and what it has done
    is to unset every default of the caller: the caller is left without a
    default address. *)
Theorem setDefault_not_owned u id w :
  is_uuid id = true →
  not_owned u id (db w) → fails 0 w = false → fails 1 w = false →
  (setDefaultAddressMutation (Some u) id w).1 = Resolved ()
  ∧ db (setDefaultAddressMutation (Some u) id w).2
    = updated (body_is_default false) [eq_user_id (Auth.id u)] (db w)
  ∧ defaults_of (Auth.id u) (db (setDefaultAddressMutation (Some u) id w).2) = [].
Proof.
  intros Hid Hno H0 H1. rewrite setDefaultAddressMutation_calls. cbn [fst snd].
  destruct (unset_defaults_served u w H0) as [Hdb1 Hf1].
  set (w1 := (rpc (unset_defaults u) w).2) in *.
  rewrite rpc_response, rpc_db, Hf1, H1, Hdb1.
  rewrite !serve_set_default, Hid. cbn [fst snd].
  rewrite (updated_none _ [eq_id id; _]).
  - split; [done|]. split; [done|]. apply defaults_unset.
  - apply not_owned_selected. by apply not_owned_updated.
Qed.

Lemma setDefault_not_owned_witness :
  (setDefaultAddressMutation (Some alice) (CustomerAddress.id C) (world [A; B; C] [])).1 = Resolved ()
  ∧ defaults_of (Auth.id alice)
      (db (setDefaultAddressMutation (Some alice) (CustomerAddress.id C) (world [A; B; C] [])).2) = [].
Proof.
  assert (H : not_owned alice (CustomerAddress.id C) (db (world [A; B; C] [])))
    by (apply not_owned_check; vm_compute; reflexivity).
  destruct (setDefault_not_owned alice (CustomerAddress.id C) (world [A; B; C] [])
              ltac:(vm_compute; reflexivity) H eq_refl eq_refl)
    as (Hr & _ & Hd).
  by split.
Defined.

(** ** The second call fails after the first went through *)

(** X8. The defaults are not restored when the second call fails.  When
    the call that unsets the defaults goes through and the next call fails,
    a create that asks for the default and a set-default are rejected with
    that call's error, no row has been added, and the caller is left
    without a default address. *)
Theorem second_call_failure_leaves_no_default u input id w :
  flag (CreateAddressInput.is_default input) = true →
  fails 0 w = false → fails 1 w = true →
  (createAddressMutation (Some u) input w).1 = Rejected (store_error FetchError)
  ∧ db (createAddressMutation (Some u) input w).2
    = updated (body_is_default false) [eq_user_id (Auth.id u)] (db w)
  ∧ defaults_of (Auth.id u) (db (createAddressMutation (Some u) input w).2) = []
  ∧ (setDefaultAddressMutation (Some u) id w).1 = Rejected (store_error FetchError)
  ∧ db (setDefaultAddressMutation (Some u) id w).2
    = updated (body_is_default false) [eq_user_id (Auth.id u)] (db w)
  ∧ defaults_of (Auth.id u) (db (setDefaultAddressMutation (Some u) id w).2) = [].
Proof.
  intros Hflag H0 H1.
  rewrite createAddressMutation_calls, setDefaultAddressMutation_calls. cbn [fst snd].
  unfold after_unset. rewrite Hflag.
  destruct (unset_defaults_served u w H0) as [Hdb1 Hf1].
  set (w1 := (rpc (unset_defaults u) w).2) in *.
  rewrite !rpc_response, !rpc_db, Hf1, H1, Hdb1.
  repeat split; try done; apply defaults_unset.
Qed.

Lemma second_call_failure_leaves_no_default_witness :
  (setDefaultAddressMutation (Some alice) (CustomerAddress.id B) (world [A; B] [false; true])).1
  = Rejected (store_error FetchError)
  ∧ defaults_of (Auth.id alice)
      (db (setDefaultAddressMutation (Some alice) (CustomerAddress.id B) (world [A; B] [false; true])).2)
    = [].
Proof.
  destruct (second_call_failure_leaves_no_default alice
              (input "7 Lake Rd" None None (Some true) None) (CustomerAddress.id B)
              (world [A; B] [false; true]) eq_refl eq_refl eq_refl)
    as (_ & _ & _ & Hr & _ & Hd).
  by split.
Defined.

(** ** Deleting a row of the user *)

(** In a table with unique ids, the filter on the id and the owner of a
    row selects that row and no other. *)
Lemma selected_own_row tbl a r :
  unique_ids tbl → a ∈ tbl → r ∈ tbl →
  selected [eq_id (CustomerAddress.id a); eq_user_id (CustomerAddress.user_id a)] r = true
  ↔ r = a.
Proof.
  intros Hu Ha Hr. unfold selected. simpl. rewrite andb_true_r, andb_true_iff.
  rewrite !bool_decide_eq_true. split.
  - intros [Hid _]. by apply (unique_ids_inj tbl).
  - by intros ->.
Qed.

(** The id of a row of a table with unique ids is a uuid. *)
Lemma filters_own_row tbl a u :
  unique_ids tbl → a ∈ tbl →
  head (omap filter_error [eq_id (CustomerAddress.id a); eq_user_id (Auth.id u)]) = None.
Proof.
  intros Hu Ha. rewrite filters_id_user.
  by rewrite (canonical_is_uuid _ (unique_ids_canonical tbl a Hu Ha)).
Qed.

Lemma filter_own_row tbl a :
  unique_ids tbl → a ∈ tbl →
  List.filter
    (selected [eq_id (CustomerAddress.id a); eq_user_id (CustomerAddress.user_id a)]) tbl
  = [a]
  ∧ List.length tbl
    = S (List.length
           (List.filter
              (fun r => negb (selected [eq_id (CustomerAddress.id a);
                                        eq_user_id (CustomerAddress.user_id a)] r)) tbl)).
Proof.
  set (sel := selected _).
  induction tbl as [|r tbl IH]; intros Hu Ha; [by apply elem_of_nil in Ha|].
  assert (Hu' : unique_ids tbl) by (by apply unique_ids_cons in Hu as (_ & _ & Hu)).
  assert (Hfresh : CustomerAddress.id r ∉ (CustomerAddress.id <$> tbl))
    by (by apply unique_ids_cons in Hu as (Hr & _ & _)).
  simpl. apply elem_of_cons in Ha as [->|Ha].
  - assert (Hsel : sel r = true) by (by apply (selected_own_row (r :: tbl)); try left).
    rewrite Hsel. simpl.
    assert (Hrest : Forall (fun r' => sel r' = false) tbl).
    { apply Forall_forall. intros r' Hr.
      destruct (sel r') eqn:Hs; [|done].
      apply (selected_own_row (r :: tbl)) in Hs; [|done|by left|by right].
      subst r'. exfalso. apply Hfresh. by apply list_elem_of_fmap_2. }
    rewrite (filter_nil _ _ Hrest). split; [done|]. f_equal.
    rewrite filter_id; [done|]. eapply Forall_impl; [exact Hrest|].
    intros r' Hr. cbv beta in Hr. by rewrite Hr.
  - assert (Hs : sel r = false).
    { destruct (sel r) eqn:Hs; [|done].
      apply (selected_own_row (r :: tbl)) in Hs; [|done|by right|by left].
      subst r. exfalso. apply Hfresh. by apply list_elem_of_fmap_2. }
    rewrite Hs. destruct (IH Hu' Ha) as [IH1 IH2]. simpl. split; [done|]. by rewrite <- IH2.
Qed.

(** X13. A delete of one of the caller's rows that the store answers
    resolves and removes that row and nothing else: the rows left are the
    other rows of the table, unchanged and in their order, and there is one
    row less.  No other address is made the default in its place. *)
Theorem delete_owned_row u a w :
  fails 0 w = false → unique_ids (db w) → a ∈ db w →
  CustomerAddress.user_id a = Auth.id u →
  (deleteAddressMutation (Some u) (CustomerAddress.id a) w).1 = Resolved ()
  ∧ (∀ r, r ∈ db (deleteAddressMutation (Some u) (CustomerAddress.id a) w).2
          ↔ r ∈ db w ∧ r ≠ a)
  ∧ db (deleteAddressMutation (Some u) (CustomerAddress.id a) w).2 `sublist_of` db w
  ∧ List.length (db w)
    = S (List.length (db (deleteAddressMutation (Some u) (CustomerAddress.id a) w).2)).
Proof.
  intros H0 Hu Ha Hown. rewrite deleteAddressMutation_calls. cbn [fst snd].
  rewrite rpc_response, rpc_db, H0, serve_delete, (filters_own_row (db w)) by done.
  cbn [fst snd]. rewrite <- Hown.
  split; [done|]. split; [|split].
  - intros r. rewrite list_elem_of_In, filter_In, <- list_elem_of_In, negb_true_iff.
    split.
    + intros [Hr Hs]. split; [done|]. intros ->.
      by rewrite (proj2 (selected_own_row (db w) a a Hu Ha Ha)) in Hs.
    + intros [Hr Hne]. split; [done|].
      destruct (selected _ r) eqn:Hs; [|done].
      by apply (selected_own_row (db w) a r Hu Ha Hr) in Hs.
  - apply filter_sublist.
  - by apply filter_own_row.
Qed.

Lemma delete_owned_row_witness :
  (deleteAddressMutation (Some alice) (CustomerAddress.id A) (world [A; B; C] [])).1
  = Resolved ()
  ∧ List.length (db (world [A; B; C] []))
    = S (List.length
           (db (deleteAddressMutation (Some alice) (CustomerAddress.id A)
                  (world [A; B; C] [])).2)).
Proof.
  assert (Hu : unique_ids (db (world [A; B; C] []))) by by_compute.
  assert (Ha : A ∈ db (world [A; B; C] [])) by (simpl; left).
  destruct (delete_owned_row alice A (world [A; B; C] []) eq_refl Hu Ha eq_refl)
    as (Hr & _ & _ & Hlen).
  by split.
Defined.

(** ** The list and the address derived from it *)

Lemma default_first_newest_first_refl a : default_first_newest_first a a.
Proof. right. split; [done | lia]. Qed.

(** The query, when the store answers. *)
Lemma queryFn_served u w :
  fails 0 w = false →
  ∃ l, queryFn (Some u) w
       = (Resolved (rows l),
          (rpc (Select [eq_user_id (Auth.id u)] order_default_first_newest_first) w).2)
     ∧ db (queryFn (Some u) w).2 = db w
     ∧ l ≡ₚ addresses_of u (db w)
     ∧ StronglySorted default_first_newest_first l.
Proof.
  intros Hnet. rewrite queryFn_calls. cbn [fst snd]. rewrite rpc_response, rpc_db, Hnet.
  destruct (select_sorted order_default_first_newest_first (panchayats w) (gen w)
              [eq_user_id (Auth.id u)] (db w) eq_refl) as (l & -> & -> & Hp & Hs).
  exists l. split; [done|]. split; [done|]. split.
  - rewrite Hp. unfold addresses_of.
    erewrite List.filter_ext; [done|]. intros r. apply selected_eq_user_id.
  - clear -Hs. induction Hs as [|a l Hs IH Ha]; constructor; [done|].
    eapply Forall_impl; [exact Ha|]. intros b. apply order_le_default_first_newest_first.
Qed.

Lemma sorted_defaultAddress l :
  StronglySorted default_first_newest_first l → defaultAddress (Some l) = head l.
Proof.
  intros Hs. destruct l as [|a l]; [done|]. simpl.
  destruct (CustomerAddress.is_default a) eqn:Ha; [done|].
  rewrite find_no_default; [done|].
  apply StronglySorted_inv in Hs as [_ Hall].
  eapply Forall_impl; [exact Hall|]. intros b [[Hd _]|[Hd _]]; congruence.
Qed.

(** X15. On the list as the query returns it, the derived default address
    is simply the first element: the ordering of the query puts a default
    address first when the user has one, and the newest address first when
    the user has none.  It comes before every address of the user in that
    order. *)
Theorem defaultAddress_of_list u w :
  fails 0 w = false →
  ∃ l, (queryFn (Some u) w).1 = Resolved (rows l)
     ∧ defaultAddress (Some l) = head l
     ∧ ∀ a b, defaultAddress (Some l) = Some a → b ∈ addresses_of u (db w) →
              default_first_newest_first a b.
Proof.
  intros Hnet. destruct (queryFn_served u w Hnet) as (l & Hq & _ & Hp & Hs).
  exists l. rewrite Hq. split; [done|].
  rewrite (sorted_defaultAddress l Hs). split; [done|].
  intros a b Ha Hb. rewrite <- Hp in Hb. destruct l as [|a' l]; [done|].
  injection Ha as ->. apply StronglySorted_inv in Hs as [_ Hall].
  apply elem_of_cons in Hb as [->|Hb]; [apply default_first_newest_first_refl|].
  by apply (proj1 (Forall_forall _ _) Hall).
Qed.

Lemma defaultAddress_of_list_witness :
  ∃ l, (queryFn (Some alice) (world [B; C; address "d" alice false 7] [])).1
       = Resolved (rows l)
     ∧ defaultAddress (Some l) = head l.
Proof.
  destruct (defaultAddress_of_list alice (world [B; C; address "d" alice false 7] [])
              eq_refl) as (l & Hq & Hd & _).
  by exists l.
Defined.

(** ** The list after a mutation that sets the default *)

(** In a sorted list where [t] is the only default, [t] comes first. *)
Lemma sorted_only_default_first l t :
  StronglySorted default_first_newest_first l → t ∈ l →
  CustomerAddress.is_default t = true →
  (∀ r, r ∈ l → CustomerAddress.is_default r = true → r = t) →
  ∃ l', l = t :: l'.
Proof.
  intros Hs Ht Hd Honly. destruct l as [|h l]; [by apply elem_of_nil in Ht|].
  exists l. f_equal. apply Honly; [by left|].
  apply elem_of_cons in Ht as [->|Ht]; [done|].
  apply StronglySorted_inv in Hs as [_ Hall].
  destruct (proj1 (Forall_forall _ _) Hall t Ht) as [[Hh _]|[Hh _]]; congruence.
Qed.

Lemma addresses_of_elem u tbl r :
  r ∈ addresses_of u tbl ↔ r ∈ tbl ∧ CustomerAddress.user_id r = Auth.id u.
Proof.
  unfold addresses_of, owned_by.
  by rewrite list_elem_of_In, filter_In, <- list_elem_of_In, bool_decide_eq_true.
Qed.

(** X16. After a set-default on one of the caller's rows, with every call
    answered, the list starts with that row, now the default with a fresh
    [updated_at], and that row is the address derived as the default. *)
Theorem list_after_setDefault_owned u b w :
  reliable w → unique_ids (db w) → b ∈ db w →
  CustomerAddress.user_id b = Auth.id u →
  ∃ l,
    ((_ ← setDefaultAddressMutation (Some u) (CustomerAddress.id b); queryFn (Some u)) w).1
    = Resolved (rows (UpdateBody.apply
                        (UpdateBody.mk None None None None None (Some true) (Some (clock w)))
                        b :: l))
    ∧ defaultAddress
        (Some (UpdateBody.apply
                 (UpdateBody.mk None None None None None (Some true) (Some (clock w)))
                 b :: l))
      = Some (UpdateBody.apply
                (UpdateBody.mk None None None None None (Some true) (Some (clock w))) b).
Proof.
  intros Hrel Hu Hb Hown.
  pose proof (canonical_is_uuid _ (unique_ids_canonical (db w) b Hu Hb)) as Hid.
  set (t := UpdateBody.apply _ b).
  unfold mbind, Remote_bind.
  destruct (setDefaultAddressMutation (Some u) (CustomerAddress.id b) w) as [res w2] eqn:Hset.
  assert (Hw2 : w2 = (setDefaultAddressMutation (Some u) (CustomerAddress.id b) w).2)
    by (by rewrite Hset).
  assert (Hf2 : fails 0 w2 = false).
  { rewrite Hw2, setDefaultAddressMutation_calls. cbn [snd].
    by rewrite !rpc_fails_next. }
  assert (Hu2 : unique_ids (db w2)).
  { rewrite Hw2, setDefaultAddressMutation_calls. cbn [snd].
    by do 2 apply rpc_unique_ids. }
  assert (Ht : t ∈ db w2).
  { rewrite Hw2, setDefaultAddressMutation_calls. cbn [snd].
    destruct (unset_defaults_served u w (Hrel 0%nat)) as [Hdb1 Hf1].
    set (w1 := (rpc (unset_defaults u) w).2) in *.
    rewrite rpc_db, Hf1, (Hrel 1%nat), Hdb1, serve_set_default, Hid.
    cbn [snd]. unfold updated at 1. apply list_elem_of_fmap.
    exists (UpdateBody.apply (body_is_default false) b). split.
    - unfold selected. simpl. rewrite !bool_decide_true by done. simpl.
      unfold t, UpdateBody.apply. simpl. done.
    - unfold updated. apply list_elem_of_fmap. exists b. split; [|done].
      unfold selected. simpl. by rewrite bool_decide_true. }
  destruct (queryFn_served u w2 Hf2) as (l0 & Hq & _ & Hp & Hs).
  rewrite Hq. cbn [fst].
  destruct (sorted_only_default_first l0 t Hs) as [l ->].
  - rewrite Hp. apply addresses_of_elem. by split.
  - done.
  - intros r Hr Hd. rewrite Hp in Hr. apply addresses_of_elem in Hr as [Hr Hru].
    rewrite Hw2 in Hr.
    destruct (setDefault_when_both_calls_succeed u (CustomerAddress.id b) w r
                Hid (Hrel 0%nat) (Hrel 1%nat) Hr Hru) as [_ Hother].
    apply (unique_ids_inj (db w2)); [done| by rewrite Hw2 | done |].
    destruct (decide (uuid_in (CustomerAddress.id r) = uuid_in (CustomerAddress.id b)))
      as [Hsame|Hdiff]; [done|].
    specialize (Hother Hdiff). congruence.
  - exists l. split; [done|]. by rewrite (sorted_defaultAddress _ Hs).
Qed.

Lemma list_after_setDefault_owned_witness :
  ∃ l,
    ((_ ← setDefaultAddressMutation (Some alice) (CustomerAddress.id B); queryFn (Some alice))
       (world [A; B; C] [])).1
    = Resolved (rows (UpdateBody.apply
                        (UpdateBody.mk None None None None None (Some true) (Some 50)) B :: l)).
Proof.
  assert (Hrel : reliable (world [A; B; C] [])) by by_compute.
  assert (Hu : unique_ids (db (world [A; B; C] []))) by by_compute.
  assert (Hb : B ∈ db (world [A; B; C] [])) by (simpl; right; left).
  destruct (list_after_setDefault_owned alice B (world [A; B; C] []) Hrel Hu Hb eq_refl)
    as (l & Hq & _).
  by exists l.
Defined.



(** ** The query *)

Lemma queryFn_db u w : db (queryFn (Some u) w).2 = db w.
Proof.
  rewrite queryFn_calls. cbn [snd]. rewrite rpc_db. by destruct (fails 0 w).
Qed.

(** X14. The query only reads.  Whoever asks and whether or not the call
    fails, the table is afterwards what it was; and the query is rejected
    exactly when a user is signed in and the call fails (without a user it
    resolves with the empty list, with one call made for a signed-in user
    and none otherwise). *)
Theorem queryFn_read_only user w :
  db (queryFn user w).2 = db w
  ∧ (resolved (queryFn user w).1 = false ↔ user ≠ None ∧ fails 0 w = true)
  ∧ queryFn None w = (Resolved (rows []), w)
  ∧ List.length (log (queryFn user w).2)
    = (List.length (log w) + match user with Some _ => 1 | None => 0 end)%nat.
Proof.
  destruct user as [u|].
  - split; [apply queryFn_db|]. rewrite queryFn_calls. cbn [fst snd].
    rewrite rpc_response, rpc_log, length_app. split; [|by split].
    destruct (fails 0 w); simpl; [by split|].
    split; [done|]. by intros [_ ?].
  - repeat split; try done; simpl; try lia. by intros [? _].
Qed.

(** ** The initial selection *)

Lemma find_elem {A} (p : A → bool) l a : List.find p l = Some a → a ∈ l ∧ p a = true.
Proof. intros H. apply find_some in H as [H1 H2]. by rewrite list_elem_of_In. Qed.

Lemma find_none_no_default l :
  List.find CustomerAddress.is_default l = None → no_default l.
Proof.
  intros H. apply Forall_forall. intros r Hr.
  apply list_elem_of_In in Hr.
  pose proof (find_none _ _ H r Hr) as Hn. by destruct (CustomerAddress.is_default r).
Qed.

(** X19. The effect that picks the initial address never overrides a
    selection: it picks an address only while no id is selected, the address
    is one of the list, and it is the one [defaultAddress] derives, a default
    address or else the first of a list without defaults. *)
Theorem initial_selection_picks l s a :
  initial_selection l s = Some a →
  s = [] ∧ a ∈ l ∧ defaultAddress (Some l) = Some a
  ∧ (CustomerAddress.is_default a = true ∨ (no_default l ∧ head l = Some a)).
Proof.
  unfold initial_selection.
  destruct (bool_decide _ && negb (str_truthy s)) eqn:Hg; [|done].
  apply andb_true_iff in Hg as [_ Hs]. apply negb_true_iff in Hs.
  assert (s = []) as -> by (by destruct s).
  intros H. split; [done|]. simpl.
  destruct (List.find CustomerAddress.is_default l) as [a'|] eqn:Hf.
  - injection H as ->. apply find_elem in Hf as [Hin Hd]. by auto.
  - split; [by apply head_Some_elem_of|]. split; [done|]. right.
    split; [by apply find_none_no_default | done].
Qed.

Lemma initial_selection_picks_witness :
  A ∈ [B; A] ∧ defaultAddress (Some [B; A]) = Some A.
Proof.
  destruct (initial_selection_picks [B; A] [] A eq_refl) as (_ & Hin & Hd & _).
  by split.
Defined.

(** X20. The effect settles after one step: when every listed address has a
    non-empty id, running the effect on the state it has produced changes
    nothing and reports nothing. *)
Theorem initial_selection_effect_once l st :
  (∀ a, a ∈ l → CustomerAddress.id a ≠ []) →
  initial_selection_effect l (initial_selection_effect l st).1
  = ((initial_selection_effect l st).1, []).
Proof.
  intros Hid. unfold initial_selection_effect at 2 3.
  destruct (initial_selection l (selectedAddressId st)) as [a|] eqn:Hsel; cbn [fst].
  - unfold initial_selection_effect. cbn [selectedAddressId].
    assert (Ha : a ∈ l).
    { unfold initial_selection in Hsel. destruct (_ && _); [|done].
      destruct (List.find _ l) as [a'|] eqn:Hf.
      - injection Hsel as ->. by apply find_elem in Hf as [? _].
      - by apply head_Some_elem_of. }
    specialize (Hid a Ha). unfold initial_selection.
    destruct (CustomerAddress.id a); [done|]. simpl. by rewrite andb_false_r.
  - unfold initial_selection_effect. by rewrite Hsel.
Qed.

Lemma initial_selection_effect_once_witness :
  initial_selection_effect [B; A]
    (initial_selection_effect [B; A] {| selectedAddressId := []; showManualInput := false |}).1
  = ({| selectedAddressId := CustomerAddress.id A; showManualInput := false |}, []).
Proof.
  rewrite initial_selection_effect_once; [reflexivity|].
  intros a Ha. repeat (apply elem_of_cons in Ha as [->|Ha]); try done.
  by apply elem_of_nil in Ha.
Defined.

(** ** Selecting an address by hand *)

Lemma find_by_id l a :
  NoDup (CustomerAddress.id <$> l) → a ∈ l →
  List.find (fun x => bool_decide (CustomerAddress.id x = CustomerAddress.id a)) l = Some a.
Proof.
  intros Hu Ha. destruct (List.find _ l) as [x|] eqn:Hf.
  - apply find_elem in Hf as [Hx Hid]. apply bool_decide_eq_true in Hid.
    f_equal. by apply (NoDup_ids_inj l).
  - apply list_elem_of_In in Ha. pose proof (find_none _ _ Hf a Ha) as Hn.
    cbv beta in Hn. by rewrite bool_decide_true in Hn.
Qed.

(** X21. Selecting a listed address selects its id, leaves the manual
    entry and reports that address, and the initial-selection effect then
    has nothing to do; selecting 'new' clears the selected id and opens the
    manual entry, which makes the effect pick the derived default address
    again while the manual entry stays open. *)
Theorem handleSelectAddress_listed l a st :
  NoDup (CustomerAddress.id <$> l) → a ∈ l →
  CustomerAddress.id a ≠ lit "new" → CustomerAddress.id a ≠ [] →
  handleSelectAddress l (CustomerAddress.id a) st
  = ({| selectedAddressId := CustomerAddress.id a; showManualInput := false |},
     [onAddressChange (CustomerAddress.full_address a); onAddressSelect a])
  ∧ initial_selection_effect l (handleSelectAddress l (CustomerAddress.id a) st).1
    = ((handleSelectAddress l (CustomerAddress.id a) st).1, [])
  ∧ initial_selection_effect l (handleSelectAddress l (lit "new") st).1
    = match defaultAddress (Some l) with
      | Some d => ({| selectedAddressId := CustomerAddress.id d; showManualInput := true |},
                   [onAddressChange (CustomerAddress.full_address d); onAddressSelect d])
      | None => ({| selectedAddressId := []; showManualInput := true |}, [])
      end.
Proof.
  intros Hu Ha Hnew Hid. unfold handleSelectAddress.
  rewrite (bool_decide_false _ Hnew), (find_by_id l a Hu Ha). simpl.
  split; [done|]. split.
  - unfold initial_selection_effect, initial_selection. cbn [selectedAddressId].
    destruct (CustomerAddress.id a); [done|]. simpl. by rewrite andb_false_r.
  - unfold initial_selection_effect, initial_selection. simpl.
    destruct l as [|x l]; [by apply elem_of_nil in Ha|]. simpl.
    by destruct (if CustomerAddress.is_default x then _ else _).
Qed.

Lemma handleSelectAddress_listed_witness :
  handleSelectAddress [A; B] (CustomerAddress.id B)
    {| selectedAddressId := CustomerAddress.id A; showManualInput := true |}
  = ({| selectedAddressId := CustomerAddress.id B; showManualInput := false |},
     [onAddressChange (lit "12 Palm Rd"); onAddressSelect B]).
Proof.
  refine (proj1 (handleSelectAddress_listed [A; B] B _ _ _ _ _)).
  - apply (bool_decide_unpack _). by vm_compute.
  - right; left.
  - by vm_compute.
  - by vm_compute.
Defined.

(** ** The exported functions: the mutation, then the refetch *)

Lemma mutate_run {A} u (fn : Remote (Settled A)) ok err w :
  mutate (Some u) fn ok err w
  = match (fn w).1 with
    | Resolved _ => (Some ok, (queryFn (Some u) (fn w).2).2)
    | Rejected e => (err e, (fn w).2)
    end.
Proof.
  unfold mutate, invalidateQueries, mbind, mret, Remote_bind, Remote_ret.
  destruct (fn w) as [[a|e] w1]; [|done]. cbn [fst snd].
  by destruct (queryFn (Some u) w1).
Qed.

Lemma queryFn_requests u w :
  request <$> log (queryFn (Some u) w).2
  = (request <$> log w)
      ++ [Select [eq_user_id (Auth.id u)] order_default_first_newest_first].
Proof. rewrite queryFn_calls. cbn [snd]. by rewrite rpc_log, fmap_app. Qed.

(** X18. Each exported function runs its mutation and then, only if the
    mutation resolved, fetches the list again: the table is the one the
    mutation left, and the round trips are the mutation's, followed by the
    list query exactly on success.  It shows a notification in every case
    but one: a rejected set-default shows nothing. *)
Theorem exported_refetch u m w :
  db (exported (Some u) m w).2 = db (invoke (Some u) m w).2
  ∧ request <$> log (exported (Some u) m w).2
    = (request <$> log (invoke (Some u) m w).2)
        ++ (if (invoke (Some u) m w).1
            then [Select [eq_user_id (Auth.id u)] order_default_first_newest_first]
            else [])
  ∧ ((exported (Some u) m w).1 = None
     ↔ (∃ id, m = setDefault id) ∧ (invoke (Some u) m w).1 = false).
Proof.
  destruct m as [input|id input|id|id];
    unfold exported, createAddress, updateAddress, deleteAddress, setDefaultAddress, invoke;
    rewrite mutate_run; cbn [fst snd].
  - destruct (createAddressMutation (Some u) input w).1; cbn [resolved fst snd];
      rewrite ?queryFn_db, ?queryFn_requests, ?app_nil_r;
      (split; [done|]); (split; [done|]); split; try done; by intros [[? ?] ?].
  - destruct (updateAddressMutation (Some u) id input w).1; cbn [resolved fst snd];
      rewrite ?queryFn_db, ?queryFn_requests, ?app_nil_r;
      (split; [done|]); (split; [done|]); split; try done; by intros [[? ?] ?].
  - destruct (deleteAddressMutation (Some u) id w).1; cbn [resolved fst snd];
      rewrite ?queryFn_db, ?queryFn_requests, ?app_nil_r;
      (split; [done|]); (split; [done|]); split; try done; by intros [[? ?] ?].
  - destruct (setDefaultAddressMutation (Some u) id w).1; cbn [resolved fst snd];
      rewrite ?queryFn_db, ?queryFn_requests, ?app_nil_r;
      (split; [done|]); (split; [done|]); split; try done.
    + by intros [_ ?].
    + intros _. split; [by exists id | done].
Qed.

(** ** Saving the form *)

Lemma handleSaveAddress_not_blank user loc f :
  ¬ blank (fullAddress f) →
  handleSaveAddress user loc f
  = match editingAddress f with
    | Some a => updateAddress user (CustomerAddress.id a) (addressPatch loc f)
    | None => createAddress user (addressData loc f)
    end.
Proof.
  intros H. unfold handleSaveAddress.
  destruct (trim (fullAddress f)) as [|c s] eqn:Ht; [|done].
  by apply trim_blank in Ht.
Qed.

Lemma rpc_log_grows q w : (List.length (log w) < List.length (log (rpc q w).2))%nat.
Proof. rewrite rpc_log, length_app. simpl. lia. Qed.

Lemma queryFn_log_grows u w :
  (List.length (log w) < List.length (log (queryFn (Some u) w).2))%nat.
Proof. rewrite queryFn_calls. cbn [snd]. apply rpc_log_grows. Qed.

Lemma mutate_log_grows {A} u (fn : Remote (Settled A)) ok err w :
  (List.length (log w) < List.length (log (fn w).2))%nat →
  (List.length (log w) < List.length (log (mutate (Some u) fn ok err w).2))%nat.
Proof.
  intros H. rewrite mutate_run. destruct (fn w).1; cbn [snd]; [|done].
  pose proof (queryFn_log_grows u (fn w).2). lia.
Qed.

(** X22. For a signed-in user the guard of the save handler is exact: the
    handler makes no call to the store if and only if the full address of
    the form is empty or white space only. *)
Theorem handleSaveAddress_no_call_iff_blank u loc f w :
  log (handleSaveAddress (Some u) loc f w).2 = log w ↔ blank (fullAddress f).
Proof.
  split.
  - intros Hlog. apply trim_blank.
    destruct (trim (fullAddress f)) as [|c s] eqn:Ht; [done|]. exfalso.
    assert (Hnb : ¬ blank (fullAddress f)).
    { intros Hb. apply trim_blank in Hb. congruence. }
    rewrite (handleSaveAddress_not_blank _ _ _ Hnb) in Hlog.
    apply (f_equal List.length) in Hlog.
    assert (List.length (log w)
            < List.length (log (match editingAddress f with
                                | Some a => updateAddress (Some u) (CustomerAddress.id a)
                                              (addressPatch loc f)
                                | None => createAddress (Some u) (addressData loc f)
                                end w).2))%nat; [|lia].
    destruct (editingAddress f) as [a|].
    + apply mutate_log_grows. rewrite updateAddressMutation_calls. cbn [snd].
      eapply Nat.le_lt_trans; [|apply rpc_log_grows]. unfold after_unset_others.
      destruct (flag _); [|done].
      pose proof (rpc_log_grows (unset_other_defaults u (CustomerAddress.id a)) w). lia.
    + apply mutate_log_grows. rewrite createAddressMutation_calls. cbn [snd].
      eapply Nat.le_lt_trans; [|apply rpc_log_grows]. unfold after_unset.
      destruct (flag _); [|done]. pose proof (rpc_log_grows (unset_defaults u) w). lia.
  - intros Hb. unfold handleSaveAddress. apply trim_blank in Hb. by rewrite Hb.
Qed.

Lemma createAddressMutation_requests u input w :
  Insert (insert_body u input) ∈ (request <$> log (createAddressMutation (Some u) input w).2).
Proof.
  rewrite createAddressMutation_calls. cbn [snd]. rewrite rpc_log, fmap_app.
  apply elem_of_app. right. by left.
Qed.

Lemma requests_mutate {A} u (fn : Remote (Settled A)) ok err w q :
  q ∈ (request <$> log (fn w).2) →
  q ∈ (request <$> log (mutate (Some u) fn ok err w).2).
Proof.
  intros H. rewrite mutate_run. destruct (fn w).1; cbn [snd]; [|done].
  rewrite queryFn_requests. apply elem_of_app. by left.
Qed.

Lemma num_or_null_idemp o : num_or_null (num_or_null o) = num_or_null o.
Proof.
  destruct o as [n|]; [|done]. simpl. case_bool_decide as Hn; [done|].
  simpl. by rewrite bool_decide_false.
Qed.

Lemma insert_body_addressData u loc f :
  insert_body u (addressData loc f)
  = {| InsertBody.user_id := Auth.id u;
       InsertBody.address_label :=
         if str_truthy (addressLabel f) then addressLabel f else lit "Home";
       InsertBody.full_address := fullAddress f;
       InsertBody.landmark :=
         if str_truthy (form_landmark f) then Some (form_landmark f) else None;
       InsertBody.panchayat_id := str_or_null (selectedPanchayat_id loc);
       InsertBody.ward_number := num_or_null (selectedWardNumber loc);
       InsertBody.is_default := isDefault f |}.
Proof.
  unfold insert_body, addressData. cbn [CreateAddressInput.address_label
    CreateAddressInput.full_address CreateAddressInput.landmark
    CreateAddressInput.panchayat_id CreateAddressInput.ward_number
    CreateAddressInput.is_default].
  rewrite num_or_null_idemp. unfold str_or, str_or_null, flag. simpl.
  by destruct (str_truthy (addressLabel f)), (form_landmark f).
Qed.

(** X23. What the form sends for a new address: for a signed-in user and a
    full address that is not blank, the handler issues an insert whose full
    address is the text of the form as typed (it is checked trimmed but sent
    untrimmed), whose label is the form's, or 'Home' for an empty one, whose
    landmark is null for an empty field, whose ward is null for ward 0 or no
    ward, and whose owner is the user. *)
Theorem handleSaveAddress_insert u loc f w :
  ¬ blank (fullAddress f) → editingAddress f = None →
  Insert {| InsertBody.user_id := Auth.id u;
            InsertBody.address_label :=
              if str_truthy (addressLabel f) then addressLabel f else lit "Home";
            InsertBody.full_address := fullAddress f;
            InsertBody.landmark :=
              if str_truthy (form_landmark f) then Some (form_landmark f) else None;
            InsertBody.panchayat_id := str_or_null (selectedPanchayat_id loc);
            InsertBody.ward_number := num_or_null (selectedWardNumber loc);
            InsertBody.is_default := isDefault f |}
  ∈ (request <$> log (handleSaveAddress (Some u) loc f w).2).
Proof.
  intros Hnb Hnew. rewrite (handleSaveAddress_not_blank _ _ _ Hnb), Hnew.
  unfold createAddress. apply requests_mutate.
  rewrite <- insert_body_addressData. apply createAddressMutation_requests.
Qed.

Lemma handleSaveAddress_insert_witness :
  Insert {| InsertBody.user_id := Auth.id alice;
            InsertBody.address_label := lit "Home";
            InsertBody.full_address := lit " 7 Lake Rd ";
            InsertBody.landmark := None;
            InsertBody.panchayat_id := None;
            InsertBody.ward_number := None;
            InsertBody.is_default := false |}
  ∈ (request <$>
       log (handleSaveAddress (Some alice) (Build_Location None (Some 0))
              (Build_Form [] (lit " 7 Lake Rd ") [] false None) (world [A] [])).2).
Proof.
  apply (handleSaveAddress_insert alice (Build_Location None (Some 0))
           (Build_Form [] (lit " 7 Lake Rd ") [] false None) (world [A] [])).
  - intros Hb. apply trim_blank in Hb. by vm_compute in Hb.
  - reflexivity.
Defined.

(** ** Editing a listed address *)

Lemma serve_update_single_hit ps g b fs tbl r :
  List.filter (selected fs) tbl = [r] →
  head (omap filter_error fs) = None →
  body_error (UpdateBody.panchayat_id b) (UpdateBody.ward_number b) = None →
  dangling ps (UpdateBody.panchayat_id b) = false →
  serve ps g (Update b fs true) tbl
  = ({| data := object (UpdateBody.apply b r); error := None |}, updated b fs tbl).
Proof.
  intros H Hfs Hb Hd. unfold serve, type_error. by rewrite Hfs, Hb, Hd, H.
Qed.

Lemma after_unset_others_panchayats u id input w :
  panchayats (after_unset_others u id input w) = panchayats w.
Proof. unfold after_unset_others. destruct (flag _); [apply rpc_panchayats | done]. Qed.

(** When every call is answered, an update of a row of the caller with
    values of the types of their columns, and a panchayat that exists,
    resolves with that row patched. *)
Lemma update_own_row_resolves u a input w :
  reliable w → unique_ids (db w) → a ∈ db w →
  CustomerAddress.user_id a = Auth.id u →
  body_error (PartialInput.panchayat_id input) (PartialInput.ward_number input) = None →
  dangling (panchayats w) (PartialInput.panchayat_id input) = false →
  (updateAddressMutation (Some u) (CustomerAddress.id a) input w).1
  = Resolved (object (UpdateBody.apply (update_body input (clock w)) a))
  ∧ UpdateBody.apply (update_body input (clock w)) a
    ∈ db (updateAddressMutation (Some u) (CustomerAddress.id a) input w).2.
Proof.
  intros Hrel Hu Ha Hown Hb Hd. rewrite updateAddressMutation_calls. cbn [fst snd].
  pose proof (canonical_is_uuid _ (unique_ids_canonical (db w) a Hu Ha)) as Hid.
  pose proof (after_unset_others_panchayats u (CustomerAddress.id a) input w) as Hps.
  set (w1 := after_unset_others u (CustomerAddress.id a) input w) in *.
  assert (Hc : clock w1 = clock w).
  { unfold w1, after_unset_others. destruct (flag _); [apply rpc_clock | done]. }
  assert (Hf : fails 0 w1 = false).
  { unfold w1, after_unset_others. destruct (flag _); [|apply Hrel].
    rewrite rpc_fails_next. apply Hrel. }
  assert (Hu1 : unique_ids (db w1)).
  { unfold w1, after_unset_others. destruct (flag _); [|done]. by apply rpc_unique_ids. }
  assert (Ha1 : a ∈ db w1).
  { unfold w1, after_unset_others. destruct (flag _); [|done].
    rewrite rpc_db, (Hrel 0%nat), serve_unset_other_defaults, Hid.
    cbn [snd]. unfold updated. apply list_elem_of_fmap. exists a. split; [|done].
    unfold selected. simpl. rewrite (bool_decide_false (_ ≠ _)); [|by intros []].
    by rewrite andb_false_r. }
  rewrite rpc_response, rpc_db, Hf. unfold final_update. rewrite Hc, Hps, <- Hown.
  rewrite (serve_update_single_hit _ _ _ _ _ a);
    [|by apply filter_own_row|rewrite Hown; by apply (filters_own_row (db w))|done..].
  cbn [fst snd]. split; [done|].
  unfold updated. apply list_elem_of_fmap. exists a. split; [|done].
  by rewrite (proj2 (selected_own_row (db w1) a a Hu1 Ha1 Ha1)).
Qed.




(** X25. Opening the edit form on a listed address and saving it untouched
    writes the row back as it was: with no location selected in the session,
    a non-empty label and every call answered, the row stored differs from
    the listed one in [updated_at] alone. *)
Theorem edit_untouched_round_trip u a w :
  reliable w → unique_ids (db w) → a ∈ db w →
  CustomerAddress.user_id a = Auth.id u →
  ¬ blank (CustomerAddress.full_address a) →
  CustomerAddress.address_label a ≠ [] →
  (handleSaveAddress (Some u) (Build_Location None None) (openEditDialog a) w).1
  = Some Address_updated
  ∧ {| CustomerAddress.id := CustomerAddress.id a;
       CustomerAddress.user_id := CustomerAddress.user_id a;
       CustomerAddress.address_label := CustomerAddress.address_label a;
       CustomerAddress.full_address := CustomerAddress.full_address a;
       CustomerAddress.landmark := CustomerAddress.landmark a;
       CustomerAddress.panchayat_id := CustomerAddress.panchayat_id a;
       CustomerAddress.ward_number := CustomerAddress.ward_number a;
       CustomerAddress.is_default := CustomerAddress.is_default a;
       CustomerAddress.created_at := CustomerAddress.created_at a;
       CustomerAddress.updated_at := clock w |}
    ∈ db (handleSaveAddress (Some u) (Build_Location None None) (openEditDialog a) w).2.
Proof.
  intros Hrel Hu Ha Hown Hnb Hlabel.
  rewrite (handleSaveAddress_not_blank _ _ (openEditDialog a) Hnb).
  cbn [openEditDialog editingAddress].
  unfold updateAddress. rewrite mutate_run.
  destruct (update_own_row_resolves u a
              (addressPatch (Build_Location None None) (openEditDialog a)) w
              Hrel Hu Ha Hown eq_refl eq_refl) as [-> Hin].
  cbn [fst snd]. rewrite queryFn_db.
  split; [done|].
  replace (CustomerAddress.mk _ _ _ _ _ _ _ _ _ _)
    with (UpdateBody.apply
            (update_body (addressPatch (Build_Location None None) (openEditDialog a)) (clock w))
            a); [done|].
  destruct a as [i o lbl full lm p wd d c up]. simpl in *.
  unfold UpdateBody.apply, str_or. simpl. f_equal.
  - by destruct lbl.
  - by destruct lm as [[|]|].
Qed.

Lemma edit_untouched_round_trip_witness :
  (handleSaveAddress (Some alice) (Build_Location None None) (openEditDialog B)
     (world [A; B; C] [])).1
  = Some Address_updated.
Proof.
  refine (proj1 (edit_untouched_round_trip alice B (world [A; B; C] []) _ _ _ _ _ _)).
  - by_compute.
  - by_compute.
  - simpl. right; left.
  - reflexivity.
  - intros Hb. apply trim_blank in Hb. by vm_compute in Hb.
  - by vm_compute.
Defined.

(** ** Set-default when both calls are answered *)

(** X11. A set-default on a uuid whose two calls are both answered
    resolves, and among the caller's rows the one with this id, if there is
    one, is the default with the client's time as [updated_at], and every
    other one is not a default. *)
Theorem setDefault_both_calls u id w r :
  is_uuid id = true → fails 0 w = false → fails 1 w = false →
  r ∈ db (setDefaultAddressMutation (Some u) id w).2 →
  CustomerAddress.user_id r = Auth.id u →
  (setDefaultAddressMutation (Some u) id w).1 = Resolved ()
  ∧ (if bool_decide (uuid_in (CustomerAddress.id r) = uuid_in id)
     then CustomerAddress.is_default r = true ∧ CustomerAddress.updated_at r = clock w
     else CustomerAddress.is_default r = false).
Proof.
  intros Hid H0 H1 Hr Hown. split.
  - rewrite setDefaultAddressMutation_calls. cbn [fst].
    by rewrite rpc_response, rpc_fails_next, H1, serve_set_default, Hid.
  - destruct (setDefault_when_both_calls_succeed u id w r Hid H0 H1 Hr Hown)
      as [Hsame Hother].
    case_bool_decide; auto.
Qed.

Lemma setDefault_both_calls_witness :
  (setDefaultAddressMutation (Some alice) (CustomerAddress.id B) (world [A; B; C] [])).1
  = Resolved ()
  ∧ CustomerAddress.is_default (UpdateBody.apply (body_is_default false) A) = false.
Proof.
  refine (setDefault_both_calls alice (CustomerAddress.id B) (world [A; B; C] [])
            (UpdateBody.apply (body_is_default false) A)
            ltac:(vm_compute; reflexivity) eq_refl eq_refl _ eq_refl).
  vm_compute. left.
Defined.
